(** * rtc::scoped_refptr and InitCocoaMultiThreading

    A shallow embedding of [api/scoped_refptr.h] and of
    [rtc_base/system/cocoa_threading.mm].

    A program state holds the reference counted objects, the live
    [scoped_refptr] objects (each one is its [ptr_] field), the external
    [T*] variables a caller may hand to [swap(T** pp)], and the log of the
    [AddRef]/[Release] calls made so far.  Every member function is a
    function on states in the [option] monad; [None] is undefined
    behaviour (a call through a dangling pointer, a [Release] without a
    reference, the use of a handle that is not alive). *)

From stdpp Require Import gmap list fin_maps option.

Set Default Proof Using "Type".

(** ** Pointers and program states *)

(** The identity of a reference counted object. *)
Abbreviation addr := nat.
(** The identity of a [scoped_refptr] object. *)
Abbreviation hid := nat.
(** The identity of an external [T*] variable. *)
Abbreviation loc := nat.

(** A [T*]: [None] is [nullptr]. *)
Abbreviation ptr := (option addr).

Inductive event :=
  | EvAddRef (p : addr)
  | EvRelease (p : addr)
  | EvDelete (p : addr).

Global Instance event_eq_dec : EqDecision event.
Proof. solve_decision. Defined.

Record object := Object { ref_count : nat; alive : bool }.

Global Instance object_eq_dec : EqDecision object.
Proof. solve_decision. Defined.

Record state := State {
  objs : gmap nat object;
  handles : gmap nat ptr;
  slots : gmap nat ptr;
  log : list event
}.

Definition set_objs (f : gmap nat object → gmap nat object) (s : state) : state :=
  State (f (objs s)) (handles s) (slots s) (log s).
Definition set_handles (f : gmap nat ptr → gmap nat ptr) (s : state) : state :=
  State (objs s) (f (handles s)) (slots s) (log s).
Definition set_slots (f : gmap nat ptr → gmap nat ptr) (s : state) : state :=
  State (objs s) (handles s) (f (slots s)) (log s).
Definition emit (es : list event) (s : state) : state :=
  State (objs s) (handles s) (slots s) (log s ++ es).

(** The claim count read off a table of objects. *)
Definition refs_of (m : gmap nat object) (p : addr) : nat :=
  match m !! p with
  | Some o => ref_count o
  | None => 0
  end.

(** The claim count of a referent, as the referent stores it. *)
Definition claim_count (s : state) (p : addr) : nat :=
  refs_of (objs s) p.

Definition is_alive (s : state) (p : addr) : bool :=
  match objs s !! p with
  | Some o => alive o
  | None => false
  end.

(** How many times the referent has been destroyed. *)
Definition deletions (s : state) (p : addr) : nat :=
  length (filter (λ e, e = EvDelete p) (log s)).

(** Whether a pointer points at [p], as a number. *)
Definition hit (v : ptr) (p : addr) : nat :=
  if decide (v = Some p) then 1 else 0.

(** The number of entries of a table of pointers that point at [p]. *)
Definition pointing (m : gmap nat ptr) (p : addr) : nat :=
  size (filter (λ kv : nat * ptr, kv.2 = Some p) m).

(** The number of live handles whose field points at [p]. *)
Definition handle_count (s : state) (p : addr) : nat :=
  pointing (handles s) p.

(** ** The reference counted object *)

(** Modelled from the spec: the Referenceable capability of [T] (the class
    behind [AddRef] and [Release] is not part of the sources).
    [increment()] registers one more claim on a referent that is alive. *)
Definition AddRef (p : addr) (s : state) : option state :=
  o ← objs s !! p;
  if alive o
  then Some (emit [EvAddRef p] (set_objs <[p := Object (S (ref_count o)) true]> s))
  else None.

(** Modelled from the spec: [decrement()] releases one claim; when the count
    reaches zero the referent destroys itself.  Releasing a claim that was
    never registered is undefined. *)
Definition Release (p : addr) (s : state) : option state :=
  o ← objs s !! p;
  if alive o
  then match ref_count o with
       | 0 => None
       | 1 => Some (emit [EvRelease p; EvDelete p] (set_objs <[p := Object 0 false]> s))
       | S n => Some (emit [EvRelease p] (set_objs <[p := Object n true]> s))
       end
  else None.

(** What [if (p) p->AddRef();] appends to the log. *)
Definition AddRef_events (v : ptr) : list event :=
  match v with
  | Some p => [EvAddRef p]
  | None => []
  end.

(** What [if (p) p->Release();] appends to the log of a state. *)
Definition Release_events (v : ptr) (s : state) : list event :=
  match v with
  | Some p => EvRelease p :: if decide (claim_count s p = 1) then [EvDelete p] else []
  | None => []
  end.

(** [new T]: a fresh referent, alive, with no claim yet. *)
Definition new_object (p : addr) (s : state) : option state :=
  match objs s !! p with
  | None => Some (set_objs <[p := Object 0 true]> s)
  | Some _ => None
  end.

(** [if (p) p->AddRef();] *)
Definition AddRef_if (v : ptr) (s : state) : option state :=
  match v with
  | Some p => AddRef p s
  | None => Some s
  end.

(** [if (p) p->Release();] *)
Definition Release_if (v : ptr) (s : state) : option state :=
  match v with
  | Some p => Release p s
  | None => Some s
  end.

(** ** The handle *)

(** Reading [ptr_] of a live handle. *)
Definition load (h : hid) (s : state) : option ptr := handles s !! h.

(** Writing [ptr_] of a live handle. *)
Definition store (h : hid) (v : ptr) (s : state) : option state :=
  _ ← handles s !! h;
  Some (set_handles <[h := v]> s).

(** The member initialiser [ptr_(v)] of a handle that comes to life. *)
Definition init (h : hid) (v : ptr) (s : state) : option state :=
  match handles s !! h with
  | None => Some (set_handles <[h := v]> s)
  | Some _ => None
  end.

(** The conversion of a [U*] to a [T*]: the referent stays the same. *)
Definition upcast (v : ptr) : ptr := v.

(** [scoped_refptr() : ptr_(nullptr) {}] *)
Definition ctor_default (h : hid) (s : state) : option state :=
  init h None s.

(** [scoped_refptr(T* p) : ptr_(p) { if (ptr_) ptr_->AddRef(); }] *)
Definition ctor_raw (h : hid) (p : ptr) (s : state) : option state :=
  s1 ← init h p s;
  v ← load h s1;
  AddRef_if v s1.

(** [T* get() const { return ptr_; }] *)
Definition get (h : hid) (s : state) : option (ptr * state) :=
  v ← load h s;
  Some (v, s).

(** [operator T*() const { return ptr_; }] *)
Definition to_raw (h : hid) (s : state) : option (ptr * state) :=
  v ← load h s;
  Some (v, s).

(** [T& operator*() const { return *ptr_; }]: the referent itself;
    there is none behind [nullptr]. *)
Definition deref (h : hid) (s : state) : option (addr * state) :=
  v ← load h s;
  p ← v;
  Some (p, s).

(** [T* operator->() const { return ptr_; }] *)
Definition arrow (h : hid) (s : state) : option (ptr * state) :=
  v ← load h s;
  Some (v, s).

(** [T* release() { T* retVal = ptr_; ptr_ = nullptr; return retVal; }] *)
Definition release (h : hid) (s : state) : option (ptr * state) :=
  retVal ← load h s;
  s1 ← store h None s;
  Some (retVal, s1).

(** [scoped_refptr(const scoped_refptr<T>& r) : ptr_(r.ptr_)
      { if (ptr_) ptr_->AddRef(); }] *)
Definition ctor_copy (h r : hid) (s : state) : option state :=
  v ← load r s;
  s1 ← init h v s;
  v' ← load h s1;
  AddRef_if v' s1.

(** [template <typename U> scoped_refptr(const scoped_refptr<U>& r)
      : ptr_(r.get()) { if (ptr_) ptr_->AddRef(); }] *)
Definition ctor_copy_U (h r : hid) (s : state) : option state :=
  '(v, s0) ← get r s;
  s1 ← init h (upcast v) s0;
  v' ← load h s1;
  AddRef_if v' s1.

(** [scoped_refptr(scoped_refptr<T>&& r) noexcept : ptr_(r.release()) {}] *)
Definition ctor_move (h r : hid) (s : state) : option state :=
  '(v, s0) ← release r s;
  init h v s0.

(** [template <typename U> scoped_refptr(scoped_refptr<U>&& r) noexcept
      : ptr_(r.release()) {}] *)
Definition ctor_move_U (h r : hid) (s : state) : option state :=
  '(v, s0) ← release r s;
  init h (upcast v) s0.

(** [~scoped_refptr() { if (ptr_) ptr_->Release(); }], after which the
    handle is gone. *)
Definition dtor (h : hid) (s : state) : option state :=
  v ← load h s;
  s1 ← Release_if v s;
  Some (set_handles (delete h) s1).

(** [operator=(T* p)]:
    [if (p) p->AddRef(); if (ptr_) ptr_->Release(); ptr_ = p;] *)
Definition assign_raw (h : hid) (p : ptr) (s : state) : option state :=
  s1 ← AddRef_if p s;
  v ← load h s1;
  s2 ← Release_if v s1;
  store h p s2.

(** The states between the three statements of [operator=(T* p)]. *)
Definition assign_raw_trace (h : hid) (p : ptr) (s : state) : option (list state) :=
  s1 ← AddRef_if p s;
  v ← load h s1;
  s2 ← Release_if v s1;
  s3 ← store h p s2;
  Some [s1; s2; s3].

(** [operator=(const scoped_refptr<T>& r) { return *this = r.ptr_; }] *)
Definition assign_copy (h r : hid) (s : state) : option state :=
  v ← load r s;
  assign_raw h v s.

(** [template <typename U> operator=(const scoped_refptr<U>& r)
      { return *this = r.get(); }] *)
Definition assign_copy_U (h r : hid) (s : state) : option state :=
  '(v, s0) ← get r s;
  assign_raw h (upcast v) s0.

(** Copy assignment as the specification words it: increment the new
    referent if it is not null, then decrement the old one if it is not
    null, then store. *)
Definition copy_assign_spec (d r : hid) (s : state) : option state :=
  new ← load r s;
  s1 ← AddRef_if new s;
  old ← load d s1;
  s2 ← Release_if old s1;
  store d new s2.

(** What [T** pp] can point at: the field of a handle or an external
    variable. *)
Inductive slot_ref :=
  | Field (r : hid)
  | Ext (l : loc).

Definition read (pp : slot_ref) (s : state) : option ptr :=
  match pp with
  | Field r => handles s !! r
  | Ext l => slots s !! l
  end.

Definition write (pp : slot_ref) (v : ptr) (s : state) : option state :=
  match pp with
  | Field r => store r v s
  | Ext l => _ ← slots s !! l; Some (set_slots <[l := v]> s)
  end.

(** [void swap(T** pp) noexcept { T* p = ptr_; ptr_ = *pp; *pp = p; }] *)
Definition swap_pp (h : hid) (pp : slot_ref) (s : state) : option state :=
  p ← load h s;
  v ← read pp s;
  s1 ← store h v s;
  write pp p s1.

(** [void swap(scoped_refptr<T>& r) noexcept { swap(&r.ptr_); }] *)
Definition swap (h r : hid) (s : state) : option state :=
  swap_pp h (Field r) s.

(** The identity of the temporary of a move assignment. *)
Definition temp_hid (s : state) : hid := fresh (dom (handles s)).

(** [operator=(scoped_refptr<T>&& r) noexcept
      { scoped_refptr<T>(std::move(r)).swap( *this); return *this; }]:
    the temporary is built by the move constructor, swapped with [*this]
    and destroyed at the end of the statement. *)
Definition assign_move (h r : hid) (s : state) : option state :=
  let t := temp_hid s in
  s1 ← ctor_move t r s;
  s2 ← swap t h s1;
  dtor t s2.

(** [template <typename U> operator=(scoped_refptr<U>&& r) noexcept
      { scoped_refptr<T>(std::move(r)).swap( *this); return *this; }] *)
Definition assign_move_U (h r : hid) (s : state) : option state :=
  let t := temp_hid s in
  s1 ← ctor_move_U t r s;
  s2 ← swap t h s1;
  dtor t s2.

(** [T* l = v;]: an external variable comes to life. *)
Definition declare_slot (l : loc) (v : ptr) (s : state) : option state :=
  match slots s !! l with
  | None => Some (set_slots <[l := v]> s)
  | Some _ => None
  end.

Definition empty_state : state := State ∅ ∅ ∅ [].

(** ** Sequences of operations *)

(** The operations of a program on handles: the members of the class, and
    the two things a caller does around them, [new T] and the declaration
    of a [T*] variable. *)
Inductive op :=
  | New (p : addr)
  | NewSlot (l : loc) (v : ptr)
  | CtorDefault (h : hid)
  | CtorRaw (h : hid) (p : ptr)
  | CtorCopy (h r : hid)
  | CtorCopyU (h r : hid)
  | CtorMove (h r : hid)
  | CtorMoveU (h r : hid)
  | Dtor (h : hid)
  | Get (h : hid)
  | ToRaw (h : hid)
  | Deref (h : hid)
  | Arrow (h : hid)
  | ReleaseOp (h : hid)
  | AssignRaw (h : hid) (p : ptr)
  | AssignCopy (h r : hid)
  | AssignCopyU (h r : hid)
  | AssignMove (h r : hid)
  | AssignMoveU (h r : hid)
  | SwapPP (h : hid) (pp : slot_ref)
  | Swap (h r : hid).

(** The claims that are not held by a handle, per referent: those that
    [release()] detached, those that [swap(T** pp)] moved into an external
    variable, and those that it moved from an external variable into a
    handle. *)
Record ledger := Ledger {
  released : gmap nat nat;
  handed_out : gmap nat nat;
  taken_in : gmap nat nat
}.

Definition tally (m : gmap nat nat) (p : addr) : nat := default 0 (m !! p).

Definition credit (v : ptr) (m : gmap nat nat) : gmap nat nat :=
  match v with
  | Some p => <[p := S (tally m p)]> m
  | None => m
  end.

Definition empty_ledger : ledger := Ledger ∅ ∅ ∅.

(** One operation, with the bookkeeping of the claims outside the handles. *)
Definition step (o : op) (σ : state * ledger) : option (state * ledger) :=
  let '(s, g) := σ in
  match o with
  | New p => s' ← new_object p s; Some (s', g)
  | NewSlot l v => s' ← declare_slot l v s; Some (s', g)
  | CtorDefault h => s' ← ctor_default h s; Some (s', g)
  | CtorRaw h p => s' ← ctor_raw h p s; Some (s', g)
  | CtorCopy h r => s' ← ctor_copy h r s; Some (s', g)
  | CtorCopyU h r => s' ← ctor_copy_U h r s; Some (s', g)
  | CtorMove h r => s' ← ctor_move h r s; Some (s', g)
  | CtorMoveU h r => s' ← ctor_move_U h r s; Some (s', g)
  | Dtor h => s' ← dtor h s; Some (s', g)
  | Get h => '(_, s') ← get h s; Some (s', g)
  | ToRaw h => '(_, s') ← to_raw h s; Some (s', g)
  | Deref h => '(_, s') ← deref h s; Some (s', g)
  | Arrow h => '(_, s') ← arrow h s; Some (s', g)
  | ReleaseOp h =>
      '(v, s') ← release h s;
      Some (s', Ledger (credit v (released g)) (handed_out g) (taken_in g))
  | AssignRaw h p => s' ← assign_raw h p s; Some (s', g)
  | AssignCopy h r => s' ← assign_copy h r s; Some (s', g)
  | AssignCopyU h r => s' ← assign_copy_U h r s; Some (s', g)
  | AssignMove h r => s' ← assign_move h r s; Some (s', g)
  | AssignMoveU h r => s' ← assign_move_U h r s; Some (s', g)
  | SwapPP h (Field r) => s' ← swap_pp h (Field r) s; Some (s', g)
  | SwapPP h (Ext l) =>
      s' ← swap_pp h (Ext l) s;
      out ← read (Ext l) s';
      inn ← load h s';
      Some (s', Ledger (released g) (credit out (handed_out g))
                       (credit inn (taken_in g)))
  | Swap h r => s' ← swap h r s; Some (s', g)
  end.

Fixpoint run (os : list op) (σ : state * ledger) : option (state * ledger) :=
  match os with
  | [] => Some σ
  | o :: os' => σ' ← step o σ; run os' σ'
  end.

(** The accounting of the claims as the specification words it: only the
    claims detached by [release()] count besides the handles. *)
Definition balanced_by_release (σ : state * ledger) : Prop :=
  ∀ p, handle_count σ.1 p + tally (released σ.2) p = claim_count σ.1 p.

(** The accounting with the claims that [swap(T** pp)] moves between a
    handle and an external variable. *)
Definition balanced (σ : state * ledger) : Prop :=
  ∀ p, handle_count σ.1 p + tally (released σ.2) p + tally (handed_out σ.2) p
       = claim_count σ.1 p + tally (taken_in σ.2) p.

(** A step that changes the count of a referent by as much as it changes
    the number of handles that point at it. *)
Definition neutral (s s' : state) : Prop :=
  ∀ p, handle_count s' p + claim_count s p = handle_count s p + claim_count s' p.

(** Whether an operation exchanges a handle with an external variable. *)
Definition uses_external_slot (o : op) : bool :=
  match o with
  | SwapPP _ (Ext _) => true
  | _ => false
  end.

Definition handles_only (os : list op) : bool :=
  forallb (λ o, negb (uses_external_slot o)) os.

Definition start : state * ledger := (empty_state, empty_ledger).

(** ** Programs that keep the contract *)

(** A destroyed referent has no claim left. *)
Definition well_formed (s : state) : Prop :=
  ∀ p o, objs s !! p = Some o → alive o = false → ref_count o = 0.

(** The caller never moved more claims into the handles than it held. *)
Definition solvent (g : ledger) : Prop :=
  ∀ p, tally (taken_in g) p ≤ tally (released g) p + tally (handed_out g) p.

Definition safe (σ : state * ledger) : Prop :=
  balanced σ ∧ well_formed σ.1 ∧ solvent σ.2.

(** A pointer the caller may pass: null or a referent that is alive. *)
Definition valid_ptr (s : state) (v : ptr) : Prop :=
  ∀ p, v = Some p → is_alive s p = true.

(** A pointer that carries a claim of the caller, or null. *)
Definition owned (g : ledger) (v : ptr) : Prop :=
  ∀ p, v = Some p →
       tally (taken_in g) p < tally (released g) p + tally (handed_out g) p.

Definition live (s : state) (h : hid) : Prop := is_Some (handles s !! h).

(** What the caller of an operation owes: new objects at new places, live
    handles as operands, raw pointers to live referents, and for a swap
    with an external variable a pointer in it that carries a claim. *)
Definition permitted (o : op) (σ : state * ledger) : Prop :=
  let '(s, g) := σ in
  match o with
  | New p => objs s !! p = None
  | NewSlot l _ => slots s !! l = None
  | CtorDefault h => handles s !! h = None
  | CtorRaw h p => handles s !! h = None ∧ valid_ptr s p
  | CtorCopy h r | CtorCopyU h r | CtorMove h r | CtorMoveU h r =>
      handles s !! h = None ∧ live s r
  | Dtor h | Get h | ToRaw h | Arrow h | ReleaseOp h => live s h
  | Deref h => ∃ p, handles s !! h = Some (Some p)
  | AssignRaw h p => live s h ∧ valid_ptr s p
  | AssignCopy h r | AssignCopyU h r | AssignMove h r | AssignMoveU h r
  | Swap h r | SwapPP h (Field r) => live s h ∧ live s r
  | SwapPP h (Ext l) => live s h ∧ ∃ v, slots s !! l = Some v ∧ owned g v
  end.

(** A sequence of operations each of which the caller may perform in the
    state it is performed in. *)
Fixpoint permitted_run (os : list op) (σ : state * ledger) : Prop :=
  match os with
  | [] => True
  | o :: os' =>
      permitted o σ ∧
      match step o σ with
      | Some σ' => permitted_run os' σ'
      | None => True
      end
  end.

(** No handle dangles: what a handle points at is alive and carries at
    least one claim. *)
Definition no_dangling (s : state) : Prop :=
  ∀ h p, handles s !! h = Some (Some p) →
         is_alive s p = true ∧ 1 ≤ claim_count s p.

(** The log and the referents agree: a referent that is alive has not been
    destroyed, and has a claim if [AddRef] was ever called on it; a
    destroyed referent has no claim left and has been destroyed once;
    nothing was called on what was never created. *)
Definition tidy (s : state) : Prop :=
  ∀ p, match objs s !! p with
       | Some o =>
           if alive o
           then deletions s p = 0 ∧ (ref_count o = 0 → EvAddRef p ∉ log s)
           else ref_count o = 0 ∧ deletions s p = 1
       | None => deletions s p = 0 ∧ EvAddRef p ∉ log s
       end.




(** ** InitCocoaMultiThreading *)

Module Cocoa.

(** What the function sees of the process: its function-local static
    [is_cocoa_multithreaded] ([None] until its initialiser has run), the
    answer of [[NSThread isMultiThreaded]], and the number of threads the
    function has detached. *)
Record process := Process {
  is_cocoa_multithreaded : option bool;
  ns_multithreaded : bool;
  detached : nat
}.

Definition fresh_process (multithreaded : bool) : process :=
  Process None multithreaded 0.

(** [[NSThread isMultiThreaded]], of Foundation. *)
Definition isMultiThreaded (π : process) : bool := ns_multithreaded π.

(** [[NSThread detachNewThreadSelector:toTarget:withObject:]], of
    Foundation: with the first detached thread the application is
    multithreaded. *)
Definition detachNewThread (π : process) : process :=
  Process (is_cocoa_multithreaded π) true (S (detached π)).

Definition set_flag (b : bool) (π : process) : process :=
  Process (Some b) (ns_multithreaded π) (detached π).

(** What happens in a process, as far as the function is concerned: a call
    of it, or other code that detaches a thread. *)
Inductive action :=
  | Call
  | OtherThread.

Definition is_call (a : action) : bool :=
  match a with
  | Call => true
  | OtherThread => false
  end.

Definition called (acts : list action) : bool := existsb is_call acts.

(** Whether other code detaches a thread before the first call. *)
Definition other_thread_first (acts : list action) : bool :=
  match acts with
  | OtherThread :: _ => true
  | _ => false
  end.

(** Between two calls the static is either not initialised, with no thread
    detached, or set, with at most one thread detached. *)
Definition settled (π : process) : Prop :=
  (is_cocoa_multithreaded π = None ∧ detached π = 0)
  ∨ (is_cocoa_multithreaded π = Some true ∧ detached π ≤ 1).

Section build.

(** Whether the build compiles the debug checks in: [RTC_DCHECK] comes from
    [rtc_base/checks.h], which is not part of the sources; a check that is
    compiled in stops the process when its condition is false. *)
Variable dchecks : bool.

Definition RTC_DCHECK (c : bool) (π : process) : option process :=
  if dchecks && negb c then None else Some π.

(** [static BOOL is_cocoa_multithreaded = [NSThread isMultiThreaded];]
    the initialiser runs when control first passes the declaration. *)
Definition init_static (π : process) : process :=
  match is_cocoa_multithreaded π with
  | None => set_flag (isMultiThreaded π) π
  | Some _ => π
  end.

Definition InitCocoaMultiThreading (π : process) : option process :=
  let π1 := init_static π in
  flag ← is_cocoa_multithreaded π1;
  if negb flag
  then
    let π2 := detachNewThread π1 in
    let π3 := set_flag true π2 in
    RTC_DCHECK (isMultiThreaded π3) π3
  else Some π1.

Definition act (a : action) (π : process) : option process :=
  match a with
  | Call => InitCocoaMultiThreading π
  | OtherThread => Some (Process (is_cocoa_multithreaded π) true (detached π))
  end.

Fixpoint run_process (acts : list action) (π : process) : option process :=
  match acts with
  | [] => Some π
  | a :: acts' => π' ← act a π; run_process acts' π'
  end.

End build.

End Cocoa.

(** * Properties *)

(** ** Counting the handles that point at a referent *)

Section pointing.
Implicit Types (m : gmap nat ptr) (h : hid) (v : ptr) (p : addr).

Lemma pointing_empty p : pointing ∅ p = 0.
Proof. unfold pointing. by rewrite map_filter_empty, map_size_empty. Qed.

Lemma pointing_fresh m h v p :
  m !! h = None → pointing (<[h := v]> m) p = pointing m p + hit v p.
Proof.
  intros Hm. unfold pointing, hit. case_decide.
  - rewrite map_filter_insert_True by done.
    rewrite map_size_insert_None by (by rewrite map_lookup_filter_None; left). lia.
  - rewrite map_filter_insert_not'; [lia | done | intros y Hy; congruence].
Qed.

Lemma pointing_split m h v p :
  m !! h = Some v → pointing m p = pointing (delete h m) p + hit v p.
Proof.
  intros Hm. rewrite <-(insert_delete_id m h v) at 1 by done.
  apply pointing_fresh, lookup_delete_eq.
Qed.

Lemma pointing_insert m h v p :
  pointing (<[h := v]> m) p = pointing (delete h m) p + hit v p.
Proof.
  rewrite <-insert_delete_eq. apply pointing_fresh, lookup_delete_eq.
Qed.

Lemma pointing_delete_None m h p :
  m !! h = None → pointing (delete h m) p = pointing m p.
Proof. intros Hm. by rewrite delete_id. Qed.
End pointing.

(** ** What the primitive steps do *)

Lemma claim_count_refs_of s p : claim_count s p = refs_of (objs s) p.
Proof. done. Qed.

Lemma refs_of_insert (m : gmap nat object) q o p :
  refs_of (<[q := o]> m) p = if decide (p = q) then ref_count o else refs_of m p.
Proof.
  unfold refs_of. case_decide as Hq.
  - subst. by rewrite lookup_insert_eq.
  - by rewrite lookup_insert_ne.
Qed.

Lemma AddRef_Some p s s' :
  AddRef p s = Some s' ↔
  ∃ n, objs s !! p = Some (Object n true) ∧
       s' = emit [EvAddRef p] (set_objs <[p := Object (S n) true]> s).
Proof.
  unfold AddRef. split.
  - intros H. destruct (objs s !! p) as [[n []]|] eqn:Ho; simplify_eq/=; eauto.
  - intros (n & -> & ->). done.
Qed.

Lemma Release_Some p s s' :
  Release p s = Some s' ↔
  ∃ n, objs s !! p = Some (Object (S n) true) ∧
       s' = emit (EvRelease p :: if decide (n = 0) then [EvDelete p] else [])
                 (set_objs <[p := Object n (bool_decide (n ≠ 0))]> s).
Proof.
  unfold Release. split.
  - intros H. destruct (objs s !! p) as [[[|[|n]] []]|] eqn:Ho; simplify_eq/=; eauto.
  - intros (n & -> & ->). by destruct n.
Qed.

Lemma store_Some h v s s' :
  store h v s = Some s' ↔ is_Some (handles s !! h) ∧ s' = set_handles <[h := v]> s.
Proof.
  unfold store. split.
  - intros H. destruct (handles s !! h) eqn:Hh; simplify_eq/=; eauto.
  - intros ([w ->] & ->). done.
Qed.

Lemma init_Some h v s s' :
  init h v s = Some s' ↔ handles s !! h = None ∧ s' = set_handles <[h := v]> s.
Proof.
  unfold init. split.
  - intros H. destruct (handles s !! h) eqn:Hh; simplify_eq/=; eauto.
  - intros (-> & ->). done.
Qed.

Lemma pointing_insert_lookup (m : gmap nat ptr) h v p :
  pointing (<[h := v]> m) p + from_option (λ w, hit w p) 0 (m !! h)
  = pointing m p + hit v p.
Proof.
  destruct (m !! h) as [w|] eqn:Hm; simpl.
  - rewrite pointing_insert, (pointing_split m h w) by done. lia.
  - rewrite pointing_fresh by done. lia.
Qed.

Lemma pointing_delete_lookup (m : gmap nat ptr) h p :
  pointing (delete h m) p + from_option (λ w, hit w p) 0 (m !! h)
  = pointing m p.
Proof.
  destruct (m !! h) as [w|] eqn:Hm; simpl.
  - rewrite (pointing_split m h w) by done. lia.
  - rewrite pointing_delete_None by done. lia.
Qed.

Lemma tally_credit v (m : gmap nat nat) p :
  tally (credit v m) p = tally m p + hit v p.
Proof.
  unfold credit, hit, tally. destruct v as [q|]; [|by rewrite decide_False; [lia|]].
  case_decide; simplify_eq.
  - rewrite lookup_insert_eq. simpl. lia.
  - rewrite lookup_insert_ne by congruence. lia.
Qed.

(** Unfolding a member function into its primitive steps. *)
Ltac invert_op :=
  repeat first
    [ progress unfold ctor_default, ctor_raw, ctor_copy, ctor_copy_U,
        ctor_move, ctor_move_U, dtor, get, to_raw, deref, arrow, release,
        assign_raw, assign_copy, assign_copy_U, swap, swap_pp, read, write,
        load, upcast, new_object, declare_slot, AddRef_if, Release_if in *
    | progress simplify_option_eq
    | match goal with
      | H : match ?v with Some _ => _ | None => _ end = Some _ |- _ =>
          destruct v eqn:?
      | H : AddRef _ _ = Some _ |- _ => apply AddRef_Some in H as (? & ? & ->)
      | H : Release _ _ = Some _ |- _ => apply Release_Some in H as (? & ? & ->)
      | H : store _ _ _ = Some _ |- _ => apply store_Some in H as ([? ?] & ->)
      | H : init _ _ _ = Some _ |- _ => apply init_Some in H as (? & ->)
      end ].

(** Collecting what the updates of a table do to the count of [p]. *)
Ltac pose_pointing m p :=
  lazymatch m with
  | insert ?h ?v ?m' =>
      pose proof (pointing_insert_lookup m' h v p); pose_pointing m' p
  | delete ?h ?m' =>
      pose proof (pointing_delete_lookup m' h p); pose_pointing m' p
  | _ => idtac
  end.

Lemma refs_of_lookup (m : gmap nat object) p o :
  m !! p = Some o → refs_of m p = ref_count o.
Proof. unfold refs_of. by intros ->. Qed.

Lemma refs_of_None (m : gmap nat object) p :
  m !! p = None → refs_of m p = 0.
Proof. unfold refs_of. by intros ->. Qed.

Ltac count_at p :=
  unfold handle_count, claim_count in *;
  cbn [handles objs slots log set_handles set_objs set_slots emit fst snd] in *;
  try match goal with
    | |- context [pointing (insert ?h ?v ?m) p] => pose_pointing (insert h v m) p
    | |- context [pointing (delete ?h ?m) p] => pose_pointing (delete h m) p
    end;
  rewrite ?refs_of_insert, ?tally_credit;
  unfold hit in *;
  repeat first
    [ progress simplify_map_eq
    | case_decide
    | match goal with
      | H : context [insert ?a _ _ !! ?b] |- _ => destruct (decide (a = b))
      | H : context [delete ?a _ !! ?b] |- _ => destruct (decide (a = b))
      end ];
  repeat match goal with
    | H : ?m !! ?q = Some ?o |- context [refs_of ?m ?q] =>
        rewrite (refs_of_lookup m q o H)
    | H : ?m !! ?q = None |- context [refs_of ?m ?q] =>
        rewrite (refs_of_None m q H)
    end;
  simpl; try lia.

(** ** Every member function keeps the accounts *)

Lemma neutral_refl s : neutral s s.
Proof. by intros p. Qed.

Lemma neutral_trans s1 s2 s3 : neutral s1 s2 → neutral s2 s3 → neutral s1 s3.
Proof. intros H12 H23 p. specialize (H12 p). specialize (H23 p). lia. Qed.

Lemma neutral_balanced s s' g : neutral s s' → balanced (s, g) → balanced (s', g).
Proof. intros Hn Hb p. specialize (Hn p). specialize (Hb p). simpl in *. lia. Qed.

Lemma new_object_neutral p s s' : new_object p s = Some s' → neutral s s'.
Proof. intros H q. invert_op; count_at q. Qed.

Lemma declare_slot_neutral l v s s' : declare_slot l v s = Some s' → neutral s s'.
Proof. intros H q. invert_op; count_at q. Qed.

Lemma ctor_default_neutral h s s' : ctor_default h s = Some s' → neutral s s'.
Proof. intros H q. invert_op; count_at q. Qed.

Lemma ctor_raw_neutral h v s s' : ctor_raw h v s = Some s' → neutral s s'.
Proof. intros H q. invert_op; count_at q. Qed.

Lemma ctor_copy_neutral h r s s' : ctor_copy h r s = Some s' → neutral s s'.
Proof. intros H q. invert_op; count_at q. Qed.

Lemma ctor_move_neutral h r s s' : ctor_move h r s = Some s' → neutral s s'.
Proof. intros H q. invert_op; count_at q. Qed.

Lemma dtor_neutral h s s' : dtor h s = Some s' → neutral s s'.
Proof. intros H q. invert_op; count_at q. Qed.

Lemma assign_raw_neutral h v s s' : assign_raw h v s = Some s' → neutral s s'.
Proof. intros H q. invert_op; count_at q. Qed.

Lemma assign_copy_neutral h r s s' : assign_copy h r s = Some s' → neutral s s'.
Proof.
  unfold assign_copy. intros H. simplify_option_eq. by eapply assign_raw_neutral.
Qed.

Lemma swap_pp_field_neutral h r s s' : swap_pp h (Field r) s = Some s' → neutral s s'.
Proof. intros H q. invert_op; count_at q. Qed.

Lemma swap_neutral h r s s' : swap h r s = Some s' → neutral s s'.
Proof. apply swap_pp_field_neutral. Qed.

Lemma assign_move_neutral h r s s' : assign_move h r s = Some s' → neutral s s'.
Proof.
  unfold assign_move. intros H.
  apply bind_Some in H as (s1 & H1 & H).
  apply bind_Some in H as (s2 & H2 & H3).
  eapply neutral_trans; [by eapply ctor_move_neutral|].
  eapply neutral_trans; [by eapply swap_neutral|by eapply dtor_neutral].
Qed.

(** The members templated over a related type [U] do what the members of
    the same type do: the conversion keeps the referent. *)
Lemma ctor_copy_U_eq h r s : ctor_copy_U h r s = ctor_copy h r s.
Proof. unfold ctor_copy_U, ctor_copy, get, load, upcast. by destruct (handles s !! r). Qed.

Lemma ctor_move_U_eq h r s : ctor_move_U h r s = ctor_move h r s.
Proof. done. Qed.

Lemma assign_copy_U_eq h r s : assign_copy_U h r s = assign_copy h r s.
Proof. unfold assign_copy_U, assign_copy, get, load, upcast. by destruct (handles s !! r). Qed.

Lemma assign_move_U_eq h r s : assign_move_U h r s = assign_move h r s.
Proof. done. Qed.

Lemma get_Some h s v s' : get h s = Some (v, s') ↔ handles s !! h = Some v ∧ s' = s.
Proof.
  unfold get, load. destruct (handles s !! h); simpl; [|by split; [|intros [? ?]]].
  split; [by intros [= -> ->]|by intros [[= ->] ->]].
Qed.

Lemma to_raw_Some h s v s' : to_raw h s = Some (v, s') ↔ handles s !! h = Some v ∧ s' = s.
Proof. apply get_Some. Qed.

Lemma arrow_Some h s v s' : arrow h s = Some (v, s') ↔ handles s !! h = Some v ∧ s' = s.
Proof. apply get_Some. Qed.

Lemma deref_Some h s p s' :
  deref h s = Some (p, s') ↔ handles s !! h = Some (Some p) ∧ s' = s.
Proof.
  unfold deref, load. destruct (handles s !! h) as [[q|]|]; simpl; [|by split; [|intros [? ?]]..].
  split; [by intros [= -> ->]|by intros [[= ->] ->]].
Qed.

Lemma release_Some h s v s' :
  release h s = Some (v, s') ↔
  handles s !! h = Some v ∧ s' = set_handles <[h := None]> s.
Proof.
  unfold release, load, store. destruct (handles s !! h); simpl; [|by split; [|intros [? ?]]].
  split; [by intros [= -> ->]|by intros [[= ->] ->]].
Qed.

Lemma release_balanced h s g v s' :
  release h s = Some (v, s') → balanced (s, g) →
  balanced (s', Ledger (credit v (released g)) (handed_out g) (taken_in g)).
Proof.
  intros H Hb q. specialize (Hb q). simpl in *. invert_op; count_at q.
Qed.

Lemma swap_pp_ext_balanced h l s g s' out inn :
  swap_pp h (Ext l) s = Some s' → read (Ext l) s' = Some out → load h s' = Some inn →
  balanced (s, g) →
  balanced (s', Ledger (released g) (credit out (handed_out g))
                       (credit inn (taken_in g))).
Proof.
  intros H Ho Hi Hb q. specialize (Hb q). simpl in *. invert_op; count_at q.
Qed.

Lemma step_balanced o σ σ' : step o σ = Some σ' → balanced σ → balanced σ'.
Proof.
  destruct σ as [s g]. intros H Hb.
  destruct o as [p|l v|h|h p|h r|h r|h r|h r|h|h|h|h|h|h|h p|h r|h r|h r|h r|h [r|l]|h r];
    simpl in H;
    rewrite ?ctor_copy_U_eq, ?ctor_move_U_eq, ?assign_copy_U_eq, ?assign_move_U_eq in H;
    apply bind_Some in H as (x & Hx & H).
  all: try (injection H as <-; eapply neutral_balanced; [|done];
    eauto using new_object_neutral, declare_slot_neutral, ctor_default_neutral,
      ctor_raw_neutral, ctor_copy_neutral, ctor_move_neutral, dtor_neutral,
      assign_raw_neutral, assign_copy_neutral, assign_move_neutral,
      swap_pp_field_neutral, swap_neutral).
  all: try (destruct x as [v s']; injection H as <-).
  - apply get_Some in Hx as [_ ->]. done.
  - apply to_raw_Some in Hx as [_ ->]. done.
  - apply deref_Some in Hx as [_ ->]. done.
  - apply arrow_Some in Hx as [_ ->]. done.
  - by eapply release_balanced.
  - apply bind_Some in H as (out & Hout & H).
    apply bind_Some in H as (inn & Hinn & H). injection H as <-.
    by eapply swap_pp_ext_balanced.
Qed.

Lemma run_app os1 os2 σ :
  run (os1 ++ os2) σ = σ1 ← run os1 σ; run os2 σ1.
Proof.
  revert σ. induction os1 as [|o os1 IH]; intros σ; simpl; [done|].
  destruct (step o σ) as [σ'|]; simpl; [apply IH|done].
Qed.

Lemma run_balanced os σ σ' : run os σ = Some σ' → balanced σ → balanced σ'.
Proof.
  revert σ. induction os as [|o os IH]; intros σ H Hb; simpl in H.
  - by injection H as <-.
  - apply bind_Some in H as (σ1 & H1 & H). eauto using step_balanced.
Qed.

Lemma balanced_empty : balanced (empty_state, empty_ledger).
Proof. intros p. simpl. unfold handle_count. simpl. by rewrite pointing_empty. Qed.

Lemma deletions_emit es s p :
  deletions (emit es s) p = deletions s p + length (filter (λ e, e = EvDelete p) es).
Proof. unfold deletions. simpl. by rewrite list.filter_app, length_app. Qed.

Lemma deletions_emit_nil s p : deletions (emit [] s) p = deletions s p.
Proof. rewrite deletions_emit. simpl. lia. Qed.

Lemma deletions_emit_cons e es s p :
  deletions (emit (e :: es) s) p
  = deletions (emit es s) p + if decide (e = EvDelete p) then 1 else 0.
Proof.
  rewrite !deletions_emit, filter_cons. case_decide; simpl; lia.
Qed.

Lemma deletions_set_objs f s p : deletions (set_objs f s) p = deletions s p.
Proof. done. Qed.

Lemma deletions_set_handles f s p : deletions (set_handles f s) p = deletions s p.
Proof. done. Qed.

Lemma deletions_set_slots f s p : deletions (set_slots f s) p = deletions s p.
Proof. done. Qed.

(** Reading the accounts of a state built from updates. *)
Ltac read_state :=
  repeat first
    [ rewrite deletions_emit_cons | rewrite deletions_emit_nil
    | rewrite deletions_set_objs | rewrite deletions_set_handles
    | rewrite deletions_set_slots ];
  unfold claim_count, refs_of, is_alive;
  cbn [handles objs slots log set_handles set_objs set_slots emit];
  repeat first [progress simplify_map_eq | case_decide]; simpl; try done; try lia.

(** Running a member function on a state whose lookups are known. *)
Ltac run_op :=
  unfold ctor_default, ctor_raw, ctor_copy, ctor_copy_U, ctor_move, ctor_move_U,
    dtor, get, to_raw, deref, arrow, release, assign_raw, assign_raw_trace,
    assign_copy, assign_copy_U, swap, swap_pp, read, write, load, store, init,
    upcast, new_object, declare_slot, AddRef_if, Release_if, AddRef, Release;
  repeat (cbn [handles objs slots log set_handles set_objs set_slots emit
               mbind option_bind alive ref_count];
          simplify_map_eq).

Lemma scenario_construct_copy_destroy s p a b :
  objs s !! p = Some (Object 0 true) → deletions s p = 0 →
  handles s !! a = None → handles s !! b = None → a ≠ b →
  ∃ s1 s2 s3 s4,
    ctor_raw a (Some p) s = Some s1 ∧ ctor_copy b a s1 = Some s2 ∧
    dtor a s2 = Some s3 ∧ dtor b s3 = Some s4 ∧
    (claim_count s1 p = 1 ∧ is_alive s1 p = true ∧ deletions s1 p = 0) ∧
    (claim_count s2 p = 2 ∧ is_alive s2 p = true ∧ deletions s2 p = 0) ∧
    (claim_count s3 p = 1 ∧ is_alive s3 p = true ∧ deletions s3 p = 0) ∧
    (claim_count s4 p = 0 ∧ is_alive s4 p = false ∧ deletions s4 p = 1).
Proof.
  intros Hp Hd Ha Hb Hab.
  eexists _, _, _, _.
  split; [by run_op|].
  split; [by run_op|].
  split; [by run_op|].
  split; [by run_op|].
  repeat split; read_state.
Qed.

Lemma step_handles_only o s g s' g' :
  step o (s, g) = Some (s', g') → uses_external_slot o = false →
  handed_out g' = handed_out g ∧ taken_in g' = taken_in g.
Proof.
  intros H Ho.
  destruct o as [p|l v|h|h p|h r|h r|h r|h r|h|h|h|h|h|h|h p|h r|h r|h r|h r|h [r|l]|h r];
    try discriminate Ho; simpl in H;
    apply bind_Some in H as (x & Hx & H); try (by injection H as <- <-).
  all: destruct x as [v s'']; by injection H as <- <-.
Qed.

Lemma run_handles_only os σ σ' :
  run os σ = Some σ' → handles_only os = true →
  handed_out σ'.2 = handed_out σ.2 ∧ taken_in σ'.2 = taken_in σ.2.
Proof.
  revert σ. induction os as [|o os IH]; intros σ H Hos; simpl in *.
  - by injection H as <-.
  - apply bind_Some in H as (σ1 & H1 & H).
    apply andb_prop in Hos as [Ho Hos]. apply negb_true_iff in Ho.
    destruct σ as [s g], σ1 as [s1 g1].
    destruct (step_handles_only _ _ _ _ _ H1 Ho) as [E1 E2].
    destruct (IH _ H Hos) as [E3 E4]. simpl in *. split; congruence.
Qed.

Lemma balanced_without_slots σ :
  balanced σ → handed_out σ.2 = ∅ → taken_in σ.2 = ∅ → balanced_by_release σ.
Proof.
  intros Hb Ho Hi p. specialize (Hb p). rewrite Ho, Hi in Hb.
  unfold tally in Hb at 2 3. rewrite lookup_empty in Hb. simpl in Hb. lia.
Qed.

Lemma run_prefix os1 os2 σ0 σ :
  run (os1 ++ os2) σ0 = Some σ → ∃ σ1, run os1 σ0 = Some σ1 ∧ run os2 σ1 = Some σ.
Proof. rewrite run_app. intros H. apply bind_Some in H. done. Qed.

(** ** The claims *)

(** C1, as the specification states it, does not hold: [swap(T** pp)] with
    an external variable moves the claim of a handle out of the handles
    without a call of [release()].  After [T* x = nullptr; a.swap(&x);] on
    a handle [a] that holds the only claim on a referent, no handle points
    at the referent and nothing was released, yet its count is 1. *)
Lemma C1_release_only_accounting_fails :
  ¬ (∀ os σ, run os start = Some σ → balanced_by_release σ).
Proof.
  intros H.
  pose (os := [New 7; CtorRaw 1 (Some 7); NewSlot 0 None; SwapPP 1 (Ext 0)]).
  destruct (run os start) as [σ|] eqn:Hrun; [|by vm_compute in Hrun].
  specialize (H os σ Hrun 7).
  vm_compute in Hrun. injection Hrun as <-.
  vm_compute in H. discriminate H.
Qed.

(** C1 (amended).  At every point of every sequence of operations, for
    every referent, the number of live handles that point at it, plus the
    claims detached by [release()], plus the claims that [swap(T** pp)]
    moved into an external variable, equals its claim count plus the claims
    that [swap(T** pp)] moved from an external variable into a handle; in a
    sequence that never swaps with an external variable the handles and the
    claims detached by [release()] alone make up the claim count.  In the
    scenario construct A from a fresh referent, copy A into B, destroy A,
    destroy B, the count goes 1, 2, 1, 0 and the referent is destroyed once,
    when the count reaches zero. *)
Theorem C1_claims_accounted_at_every_point :
  (∀ os1 os2 σ0 σ,
     balanced σ0 → run (os1 ++ os2) σ0 = Some σ →
     ∃ σ1, run os1 σ0 = Some σ1 ∧ balanced σ1)
  ∧ (∀ os1 os2 σ,
       handles_only os1 = true → run (os1 ++ os2) start = Some σ →
       ∃ σ1, run os1 start = Some σ1 ∧ balanced_by_release σ1)
  ∧ (∀ s p a b,
       objs s !! p = Some (Object 0 true) → deletions s p = 0 →
       handles s !! a = None → handles s !! b = None → a ≠ b →
       ∃ s1 s2 s3 s4,
         ctor_raw a (Some p) s = Some s1 ∧ ctor_copy b a s1 = Some s2 ∧
         dtor a s2 = Some s3 ∧ dtor b s3 = Some s4 ∧
         (claim_count s1 p = 1 ∧ is_alive s1 p = true ∧ deletions s1 p = 0) ∧
         (claim_count s2 p = 2 ∧ is_alive s2 p = true ∧ deletions s2 p = 0) ∧
         (claim_count s3 p = 1 ∧ is_alive s3 p = true ∧ deletions s3 p = 0) ∧
         (claim_count s4 p = 0 ∧ is_alive s4 p = false ∧ deletions s4 p = 1)).
Proof.
  split; [|split].
  - intros os1 os2 σ0 σ Hb H.
    apply run_prefix in H as (σ1 & H1 & _). eauto using run_balanced.
  - intros os1 os2 σ Hos H.
    apply run_prefix in H as (σ1 & H1 & _). exists σ1. split; [done|].
    destruct (run_handles_only _ _ _ H1 Hos) as [E1 E2].
    apply balanced_without_slots; [|done..].
    eauto using run_balanced, balanced_empty.
  - apply scenario_construct_copy_destroy.
Qed.

(** The accounts after a swap with an external variable, after a
    [release()], and the scenario on referent 7 with handles 1 and 2. *)
Lemma C1_claims_accounted_witness :
  (∃ σ1, run [New 7; CtorRaw 1 (Some 7); NewSlot 0 None; SwapPP 1 (Ext 0)] start
         = Some σ1 ∧ balanced σ1)
  ∧ (∃ σ1, run [New 7; CtorRaw 1 (Some 7); CtorCopy 2 1; ReleaseOp 1; Dtor 1] start
           = Some σ1 ∧ balanced_by_release σ1)
  ∧ (∃ s1 s2 s3 s4,
       ctor_raw 1 (Some 7) (State {[7 := Object 0 true]} ∅ ∅ []) = Some s1 ∧
       ctor_copy 2 1 s1 = Some s2 ∧ dtor 1 s2 = Some s3 ∧ dtor 2 s3 = Some s4 ∧
       (claim_count s1 7 = 1 ∧ is_alive s1 7 = true ∧ deletions s1 7 = 0) ∧
       (claim_count s2 7 = 2 ∧ is_alive s2 7 = true ∧ deletions s2 7 = 0) ∧
       (claim_count s3 7 = 1 ∧ is_alive s3 7 = true ∧ deletions s3 7 = 0) ∧
       (claim_count s4 7 = 0 ∧ is_alive s4 7 = false ∧ deletions s4 7 = 1)).
Proof.
  destruct C1_claims_accounted_at_every_point as (Hall & Hrel & Hscen).
  split; [|split].
  - apply (Hall _ [Dtor 1] start (State
      {[7 := Object 1 true]} ∅ {[0 := Some 7]} [EvAddRef 7],
      Ledger ∅ {[7 := 1]} ∅)).
    + intros p. reflexivity.
    + vm_compute. reflexivity.
  - eapply (Hrel _ [Dtor 2]).
    + reflexivity.
    + vm_compute. reflexivity.
  - apply Hscen; [reflexivity | reflexivity | reflexivity | reflexivity | lia].
Defined.

Lemma AddRef_if_log v s s' : AddRef_if v s = Some s' → log s' = log s ++ AddRef_events v.
Proof. intros H. invert_op; simpl; by rewrite ?app_nil_r. Qed.

Lemma AddRef_if_handles v s s' : AddRef_if v s = Some s' → handles s' = handles s.
Proof. intros H. by invert_op. Qed.

Lemma Release_if_log v s s' :
  Release_if v s = Some s' → log s' = log s ++ Release_events v s.
Proof.
  intros H. destruct v as [p|]; simpl in *; [|injection H as <-; by rewrite app_nil_r].
  apply Release_Some in H as (n & Hn & ->). simpl.
  unfold claim_count. rewrite (refs_of_lookup _ _ _ Hn). simpl.
  destruct n; repeat case_decide; simplify_eq/=; done.
Qed.

Lemma Release_if_handles v s s' : Release_if v s = Some s' → handles s' = handles s.
Proof. intros H. by invert_op. Qed.

Lemma assign_raw_trace_last h p s s3 :
  assign_raw h p s = Some s3 ↔
  ∃ s1 s2, assign_raw_trace h p s = Some [s1; s2; s3].
Proof.
  unfold assign_raw, assign_raw_trace. split.
  - intros H. simplify_option_eq. eauto.
  - intros (s1 & s2 & H). simplify_option_eq. done.
Qed.

Lemma assign_raw_steps h p s s3 :
  assign_raw h p s = Some s3 →
  ∃ q s1 s2,
    handles s !! h = Some q ∧
    AddRef_if p s = Some s1 ∧ Release_if q s1 = Some s2 ∧
    store h p s2 = Some s3 ∧
    assign_raw_trace h p s = Some [s1; s2; s3] ∧
    log s1 = log s ++ AddRef_events p ∧
    log s2 = log s ++ AddRef_events p ++ Release_events q s1 ∧
    log s3 = log s2 ∧
    handles s1 !! h = Some q ∧ handles s2 !! h = Some q ∧
    handles s3 !! h = Some p.
Proof.
  intros H. unfold assign_raw in H.
  apply bind_Some in H as (s1 & H1 & H).
  apply bind_Some in H as (q & Hq & H).
  apply bind_Some in H as (s2 & H2 & H3).
  unfold load in Hq.
  pose proof (AddRef_if_handles _ _ _ H1) as E1.
  pose proof (Release_if_handles _ _ _ H2) as E2.
  exists q, s1, s2. rewrite <-E1 at 1.
  split_and!; try done.
  - unfold assign_raw_trace, load. rewrite H1. simpl. rewrite Hq. simpl.
    rewrite H2. simpl. by rewrite H3.
  - by apply AddRef_if_log.
  - rewrite (Release_if_log _ _ _ H2), (AddRef_if_log _ _ _ H1). by rewrite <-app_assoc.
  - by apply store_Some in H3 as [_ ->].
  - congruence.
  - apply store_Some in H3 as [_ ->]. simpl. apply lookup_insert_eq.
Qed.

(** C2.  [operator=(T* p)] first calls [AddRef] on [p] (when it is not
    null), then [Release] on the referent the handle holds (when there is
    one), then stores [p]: in the log the [AddRef] comes before the
    [Release], and the field changes in the last step only.  So for a
    handle that holds [p], with [n >= 1] claims on [p], [h = p] runs, the
    count of [p] is [n + 1], then [n], then [n], never zero; the referent
    stays alive and is not destroyed. *)
Theorem C2_assign_raw_order_self_assignment :
  (∀ h p s s3,
     assign_raw h p s = Some s3 →
     ∃ q s1 s2,
       handles s !! h = Some q ∧
       AddRef_if p s = Some s1 ∧ Release_if q s1 = Some s2 ∧
       store h p s2 = Some s3 ∧
       assign_raw_trace h p s = Some [s1; s2; s3] ∧
       log s1 = log s ++ AddRef_events p ∧
       log s2 = log s ++ AddRef_events p ++ Release_events q s1 ∧
       log s3 = log s2 ∧
       handles s1 !! h = Some q ∧ handles s2 !! h = Some q ∧
       handles s3 !! h = Some p)
  ∧ (∀ h p n s,
       handles s !! h = Some (Some p) → claim_count s p = n → 1 ≤ n →
       is_alive s p = true →
       ∃ s1 s2 s3,
         assign_raw_trace h (Some p) s = Some [s1; s2; s3] ∧
         assign_raw h (Some p) s = Some s3 ∧
         claim_count s1 p = S n ∧ claim_count s2 p = n ∧ claim_count s3 p = n ∧
         Forall (λ t, claim_count t p ≠ 0 ∧ is_alive t p = true ∧
                      deletions t p = deletions s p) [s1; s2; s3] ∧
         handles s3 = handles s ∧ objs s3 = objs s ∧
         log s3 = log s ++ [EvAddRef p; EvRelease p]).
Proof.
  split; [apply assign_raw_steps|].
  intros h p n s Hh <- Hn1 Ha.
  assert (∃ m, objs s !! p = Some (Object (S m) true)) as [m Ho].
  { unfold claim_count, refs_of, is_alive in *.
    destruct (objs s !! p) as [[[|m] al]|]; simplify_eq/=; try lia; eauto. }
  rewrite (refs_of_lookup _ _ _ Ho : claim_count s p = _). simpl.
  eexists _, _, _. split; [by run_op|]. split; [by run_op|].
  split_and!; try by read_state.
  - repeat constructor; read_state.
  - simpl. by apply insert_id.
  - simpl. rewrite !insert_insert_eq. by apply insert_id.
  - simpl. by rewrite <-app_assoc.
Qed.

(** [h = p] on the only handle of a referent: the count is 2, 1, 1. *)
Lemma C2_assign_raw_witness :
  ∃ s1 s2 s3,
    assign_raw_trace 1 (Some 7)
      (State {[7 := Object 1 true]} {[1 := Some 7]} ∅ [EvAddRef 7])
    = Some [s1; s2; s3] ∧
    claim_count s1 7 = 2 ∧ claim_count s2 7 = 1 ∧ claim_count s3 7 = 1.
Proof.
  destruct C2_assign_raw_order_self_assignment as [Horder Hself].
  destruct (Hself 1 7 1 (State {[7 := Object 1 true]} {[1 := Some 7]} ∅ [EvAddRef 7]))
    as (s1 & s2 & s3 & Ht & Ha & H1 & H2 & H3 & _);
    [reflexivity | reflexivity | lia | reflexivity |].
  destruct (Horder 1 (Some 7) _ s3 Ha) as (q & t1 & t2 & _).
  exists s1, s2, s3. done.
Defined.

Lemma temp_hid_fresh s : handles s !! temp_hid s = None.
Proof. apply not_elem_of_dom. unfold temp_hid. apply is_fresh. Qed.

Lemma Release_if_set_handles f v s :
  Release_if v (set_handles f s) = set_handles f <$> Release_if v s.
Proof.
  destruct v as [p|]; simpl; [|done]. unfold Release. simpl.
  destruct (objs s !! p) as [[[|[|n]] []]|]; done.
Qed.

Lemma Release_if_claim_count v s s' p :
  Release_if v s = Some s' → claim_count s' p + hit v p = claim_count s p.
Proof. intros H. invert_op; count_at p. Qed.

Lemma Release_if_slots v s s' : Release_if v s = Some s' → slots s' = slots s.
Proof. intros H. by invert_op. Qed.

Lemma assign_move_distinct d r s vd vr :
  d ≠ r → handles s !! d = Some vd → handles s !! r = Some vr →
  assign_move d r s
  = s2 ← Release_if vd s; Some (set_handles (λ m, <[d := vr]> (<[r := None]> m)) s2).
Proof.
  intros Hdr Hd Hr. pose proof (temp_hid_fresh s) as Ht.
  unfold assign_move. set (t := temp_hid s) in *.
  assert (t ≠ d) by congruence. assert (t ≠ r) by congruence.
  unfold ctor_move, release, swap, swap_pp, read, write, dtor, load, store, init.
  repeat (cbn [handles objs slots log set_handles set_objs set_slots mbind option_bind];
          simplify_map_eq).
  rewrite !Release_if_set_handles.
  destruct (Release_if vd s) as [s2|] eqn:HR; simpl; [|done].
  apply Release_if_handles in HR.
  f_equal. destruct s2 as [o m sl lg]. unfold set_handles. simpl in *. f_equal.
  subst m. apply map_eq. intros k.
  destruct (decide (k = t)) as [->|]; [by simplify_map_eq|].
  destruct (decide (k = d)) as [->|]; by simplify_map_eq.
Qed.

Lemma assign_move_self d s : is_Some (handles s !! d) → assign_move d d s = Some s.
Proof.
  intros [vd Hd]. pose proof (temp_hid_fresh s) as Ht.
  unfold assign_move. set (t := temp_hid s) in *.
  assert (t ≠ d) by congruence.
  unfold ctor_move, release, swap, swap_pp, read, write, dtor, load, store, init.
  repeat (cbn [handles objs slots log set_handles set_objs set_slots mbind option_bind
               Release_if];
          simplify_map_eq).
  f_equal. destruct s as [o m sl lg]. unfold set_handles. simpl in *. f_equal.
  apply map_eq. intros k.
  destruct (decide (k = t)) as [->|]; [by simplify_map_eq|].
  destruct (decide (k = d)) as [->|]; by simplify_map_eq.
Qed.

(** C3, as the specification states it, does not hold when the source and
    the destination are the same handle: after [h = std::move(h)] on a
    handle that holds a referent, the field of the source is not null. *)
Lemma C3_self_move_source_not_null :
  ¬ (∀ d r s s' v,
       is_Some (handles s !! d) → handles s !! r = Some v →
       assign_move d r s = Some s' →
       handles s' !! d = Some v ∧ handles s' !! r = Some None).
Proof.
  intros H.
  destruct (H 1 1 (State {[7 := Object 1 true]} {[1 := Some 7]} ∅ [EvAddRef 7])
              (State {[7 := Object 1 true]} {[1 := Some 7]} ∅ [EvAddRef 7])
              (Some 7)) as [_ Hnull].
  - by eexists.
  - reflexivity.
  - vm_compute. reflexivity.
  - vm_compute in Hnull. discriminate Hnull.
Qed.

(** C3 (amended).  Move assignment builds a temporary by move from the
    source, swaps it with the destination and destroys it.  For two
    distinct handles [d] and [r], after [d = std::move(r)] the destination
    holds the former referent of the source, the field of the source is
    null, the other handles are as before, no [AddRef] is called and the
    only [Release] is one on the previous referent of [d], when there is
    one (also when it is the referent of the source): the count of every
    other referent is unchanged.  When [d] and [r] are the same handle the
    state is unchanged: the handle keeps its referent and nothing is
    released.  The member for a related type does the same. *)
Theorem C3_move_assignment :
  (∀ d r s vd vr,
     d ≠ r → handles s !! d = Some vd → handles s !! r = Some vr →
     assign_move d r s
     = (s2 ← Release_if vd s;
        Some (set_handles (λ m, <[d := vr]> (<[r := None]> m)) s2))
     ∧ ∀ s', assign_move d r s = Some s' →
         handles s' !! d = Some vr ∧ handles s' !! r = Some None ∧
         (∀ k, k ≠ d → k ≠ r → handles s' !! k = handles s !! k) ∧
         slots s' = slots s ∧
         log s' = log s ++ Release_events vd s ∧
         (∀ p, claim_count s' p + hit vd p = claim_count s p))
  ∧ (∀ d s, is_Some (handles s !! d) → assign_move d d s = Some s)
  ∧ (∀ d r s, assign_move_U d r s = assign_move d r s).
Proof.
  split; [|split].
  - intros d r s vd vr Hdr Hd Hr.
    pose proof (assign_move_distinct d r s vd vr Hdr Hd Hr) as E.
    split; [done|]. intros s' H. rewrite E in H.
    apply bind_Some in H as (s2 & H2 & H). injection H as <-.
    pose proof (Release_if_handles _ _ _ H2) as Eh.
    split_and!; simpl.
    + by simplify_map_eq.
    + by simplify_map_eq.
    + intros k ? ?. rewrite Eh. by simplify_map_eq.
    + by apply Release_if_slots in H2.
    + by apply Release_if_log.
    + intros p. by apply (Release_if_claim_count vd s s2 p).
  - apply assign_move_self.
  - apply assign_move_U_eq.
Qed.

(** A move between two handles on two referents, and a self-move. *)
Lemma C3_move_assignment_witness :
  (∃ s', assign_move 2 1
           (State {[7 := Object 1 true; 8 := Object 1 true]}
                  {[1 := Some 7; 2 := Some 8]} ∅ [EvAddRef 7; EvAddRef 8])
         = Some s' ∧
         handles s' !! 2 = Some (Some 7) ∧ handles s' !! 1 = Some None ∧
         log s' = [EvAddRef 7; EvAddRef 8; EvRelease 8; EvDelete 8])
  ∧ assign_move 1 1 (State {[7 := Object 1 true]} {[1 := Some 7]} ∅ [EvAddRef 7])
    = Some (State {[7 := Object 1 true]} {[1 := Some 7]} ∅ [EvAddRef 7]).
Proof.
  destruct C3_move_assignment as (Hdistinct & Hself & _).
  split.
  - destruct (Hdistinct 2 1
      (State {[7 := Object 1 true; 8 := Object 1 true]}
             {[1 := Some 7; 2 := Some 8]} ∅ [EvAddRef 7; EvAddRef 8])
      (Some 8) (Some 7)) as [E Hpost]; [lia | reflexivity | reflexivity |].
    eexists. split; [rewrite E; vm_compute; reflexivity|].
    edestruct Hpost as (Hd & Hr & _ & _ & Hlog & _); [rewrite E; vm_compute; reflexivity|].
    split; [exact Hd|]. split; [exact Hr|]. exact Hlog.
  - apply Hself. by eexists.
Defined.

(** Two distinct handles on one referent: the move assignment releases the
    claim the destination held, so the count of the moved referent drops. *)
Example assign_move_aliasing :
  ∃ s', assign_move 2 1
          (State {[7 := Object 2 true]} {[1 := Some 7; 2 := Some 7]} ∅
                 [EvAddRef 7; EvAddRef 7]) = Some s' ∧
        handles s' !! 2 = Some (Some 7) ∧ handles s' !! 1 = Some None ∧
        claim_count s' 7 = 1 ∧ handle_count s' 7 = 1.
Proof. eexists. split; [vm_compute; reflexivity|]. by vm_compute. Qed.

Lemma set_handles_id h v s :
  handles s !! h = Some v → set_handles <[h := v]> s = s.
Proof.
  intros H. destruct s as [o m sl lg]. unfold set_handles. simpl in *.
  by rewrite insert_id.
Qed.

Lemma dtor_null h s :
  handles s !! h = Some None → dtor h s = Some (set_handles (delete h) s).
Proof. intros H. unfold dtor, load. by rewrite H. Qed.

(** C4.  [release()] returns the pointer the handle holds and sets the
    field to null; it calls neither [AddRef] nor [Release], so every count
    is as before while one handle fewer points at the returned referent:
    that claim is now the caller's, and the bookkeeping of a sequence
    credits it exactly once.  Destroying the handle afterwards only ends
    its life: no call is made and no count changes. *)
Theorem C4_release_detaches :
  ∀ h s v,
    handles s !! h = Some v →
    ∃ s',
      release h s = Some (v, s') ∧
      handles s' = <[h := None]> (handles s) ∧
      objs s' = objs s ∧ slots s' = slots s ∧ log s' = log s ∧
      (∀ p, claim_count s' p = claim_count s p) ∧
      (∀ p, handle_count s' p + hit v p = handle_count s p) ∧
      (∀ g, ∃ g',
         step (ReleaseOp h) (s, g) = Some (s', g') ∧
         handed_out g' = handed_out g ∧ taken_in g' = taken_in g ∧
         ∀ p, tally (released g') p = tally (released g) p + hit v p) ∧
      ∃ s'',
        dtor h s' = Some s'' ∧
        handles s'' = delete h (handles s) ∧
        objs s'' = objs s' ∧ slots s'' = slots s' ∧ log s'' = log s'.
Proof.
  intros h s v Hh. exists (set_handles <[h := None]> s).
  assert (release h s = Some (v, set_handles <[h := None]> s)) as Hrel
    by (by apply release_Some).
  split_and!; try done.
  - intros p. count_at p.
  - intros g. eexists. simpl. rewrite Hrel. simpl. split_and!; try done.
    intros p. simpl. apply tally_credit.
  - eexists. split; [apply dtor_null; simpl; apply lookup_insert_eq|].
    simpl. by rewrite delete_insert_eq.
Qed.

(** [release()] on the only handle of a referent. *)
Lemma C4_release_witness :
  ∃ s', release 1 (State {[7 := Object 1 true]} {[1 := Some 7]} ∅ [EvAddRef 7])
        = Some (Some 7, s') ∧
        handles s' = <[1 := None]> {[1 := Some 7]} ∧ claim_count s' 7 = 1.
Proof.
  destruct (C4_release_detaches 1
    (State {[7 := Object 1 true]} {[1 := Some 7]} ∅ [EvAddRef 7]) (Some 7))
    as (s' & Hrel & Hh & _ & _ & _ & Hc & _); [reflexivity|].
  exists s'. split; [exact Hrel|]. split; [exact Hh|]. exact (Hc 7).
Defined.

(** C5.  The move constructors (same type and related type) give the new
    handle the pointer of the source and set the field of the source to
    null; they call neither [AddRef] nor [Release], so every count is as
    before, and as many handles as before point at each referent. *)
Theorem C5_move_construction :
  ∀ b a s v,
    handles s !! a = Some v → handles s !! b = None →
    ∃ s',
      ctor_move b a s = Some s' ∧ ctor_move_U b a s = Some s' ∧
      handles s' = <[b := v]> (<[a := None]> (handles s)) ∧
      handles s' !! b = Some v ∧ handles s' !! a = Some None ∧
      objs s' = objs s ∧ slots s' = slots s ∧ log s' = log s ∧
      (∀ p, claim_count s' p = claim_count s p) ∧
      (∀ p, handle_count s' p = handle_count s p).
Proof.
  intros b a s v Ha Hb. assert (a ≠ b) by congruence.
  exists (set_handles (λ m, <[b := v]> (<[a := None]> m)) s).
  assert (ctor_move b a s
          = Some (set_handles (λ m, <[b := v]> (<[a := None]> m)) s)) as E.
  { unfold ctor_move. rewrite (proj2 (release_Some a s v _) (conj Ha eq_refl)).
    simpl. unfold init. simpl. by simplify_map_eq. }
  split_and!; try done; simpl.
  - by simplify_map_eq.
  - by simplify_map_eq.
  - intros p. count_at p.
Qed.

(** Handle 2 move-constructed from handle 1. *)
Lemma C5_move_construction_witness :
  ∃ s', ctor_move 2 1 (State {[7 := Object 1 true]} {[1 := Some 7]} ∅ [EvAddRef 7])
        = Some s' ∧
        handles s' !! 2 = Some (Some 7) ∧ handles s' !! 1 = Some None ∧
        log s' = [EvAddRef 7] ∧ claim_count s' 7 = 1.
Proof.
  destruct (C5_move_construction 2 1
    (State {[7 := Object 1 true]} {[1 := Some 7]} ∅ [EvAddRef 7]) (Some 7))
    as (s' & Hm & _ & _ & Hb & Ha & _ & _ & Hl & Hc & _);
    [reflexivity | reflexivity |].
  exists s'. split; [exact Hm|]. split; [exact Hb|]. split; [exact Ha|].
  split; [exact Hl|]. exact (Hc 7).
Defined.

(** C6.  [swap(T** pp)] exchanges the field of the handle with what [pp]
    points at, the field of another handle or an external variable, and
    calls neither [AddRef] nor [Release]: no count changes.  Nothing else
    is written.  [swap(scoped_refptr<T>& r)] is [swap(&r.ptr_)]. *)
Theorem C6_swap_exchanges :
  (∀ h pp s vh vp,
     handles s !! h = Some vh → read pp s = Some vp →
     ∃ s',
       swap_pp h pp s = Some s' ∧
       handles s' !! h = Some vp ∧ read pp s' = Some vh ∧
       (∀ k, k ≠ h → Field k ≠ pp → handles s' !! k = handles s !! k) ∧
       (∀ l, Ext l ≠ pp → slots s' !! l = slots s !! l) ∧
       objs s' = objs s ∧ log s' = log s ∧
       (∀ p, claim_count s' p = claim_count s p))
  ∧ (∀ h r s, swap h r s = swap_pp h (Field r) s).
Proof.
  split; [|done].
  intros h [r|l] s vh vp Hh Hp; simpl in Hp.
  - exists (set_handles (λ m, <[r := vh]> (<[h := vp]> m)) s).
    split_and!; try done; simpl.
    + destruct (decide (h = r)); by run_op.
    + destruct (decide (h = r)); by simplify_map_eq.
    + by simplify_map_eq.
    + intros k ? ?. assert (k ≠ r) by congruence. by simplify_map_eq.
  - exists (set_slots <[l := vh]> (set_handles <[h := vp]> s)).
    split_and!; try done; simpl.
    + by run_op.
    + by simplify_map_eq.
    + by simplify_map_eq.
    + intros k ? _. by simplify_map_eq.
    + intros k ?. assert (k ≠ l) by congruence. by simplify_map_eq.
Qed.

(** A swap with the field of another handle and one with an external
    variable. *)
Lemma C6_swap_witness :
  (∃ s', swap_pp 1 (Field 2)
           (State {[7 := Object 1 true]} {[1 := Some 7; 2 := None]} {[0 := None]}
                  [EvAddRef 7]) = Some s' ∧
         handles s' !! 1 = Some None ∧ handles s' !! 2 = Some (Some 7) ∧
         log s' = [EvAddRef 7])
  ∧ (∃ s', swap_pp 1 (Ext 0)
             (State {[7 := Object 1 true]} {[1 := Some 7; 2 := None]} {[0 := None]}
                    [EvAddRef 7]) = Some s' ∧
           handles s' !! 1 = Some None ∧ slots s' !! 0 = Some (Some 7) ∧
           log s' = [EvAddRef 7]).
Proof.
  destruct C6_swap_exchanges as [Hswap _].
  split.
  - destruct (Hswap 1 (Field 2)
      (State {[7 := Object 1 true]} {[1 := Some 7; 2 := None]} {[0 := None]}
             [EvAddRef 7]) (Some 7) None)
      as (s' & H & H1 & H2 & _ & _ & _ & Hl & _); [reflexivity | reflexivity |].
    exists s'. split; [exact H|]. split; [exact H1|]. split; [exact H2|]. exact Hl.
  - destruct (Hswap 1 (Ext 0)
      (State {[7 := Object 1 true]} {[1 := Some 7; 2 := None]} {[0 := None]}
             [EvAddRef 7]) (Some 7) None)
      as (s' & H & H1 & H2 & _ & _ & _ & Hl & _); [reflexivity | reflexivity |].
    exists s'. split; [exact H|]. split; [exact H1|]. split; [exact H2|]. exact Hl.
Defined.

Lemma AddRef_if_claim_count v s s' p :
  AddRef_if v s = Some s' → claim_count s' p = claim_count s p + hit v p.
Proof. intros H. invert_op; count_at p. Qed.

Lemma AddRef_if_alive v s :
  (∀ p, v = Some p → is_alive s p = true) → is_Some (AddRef_if v s).
Proof.
  intros Hv. destruct v as [p|]; simpl; [|by eexists].
  specialize (Hv p eq_refl). unfold is_alive in Hv. unfold AddRef.
  destruct (objs s !! p) as [[n []]|]; simplify_eq/=. by eexists.
Qed.

(** C7.  Copy assignment from a handle, of the same or of a related type,
    is assignment of the pointer the source holds: it does what the
    specification words as increment the new referent, then decrement the
    old one, then store.  The field of the source is as before.  Copy
    construction and copy assignment from a related type call [AddRef]
    once, on the referent of the source, and the new value of the handle
    is the converted pointer of the source. *)
Theorem C7_copy_assignment_delegates :
  (∀ d r s,
     assign_copy d r s = copy_assign_spec d r s ∧
     assign_copy_U d r s = copy_assign_spec d r s)
  ∧ (∀ d r s v,
       handles s !! r = Some v →
       get r s = Some (v, s) ∧
       assign_copy d r s = assign_raw d v s ∧
       assign_copy_U d r s = assign_raw d (upcast v) s ∧
       ∀ s', assign_copy_U d r s = Some s' →
         handles s' !! r = Some v ∧ get d s' = Some (upcast v, s') ∧
         ∃ old s1,
           handles s !! d = Some old ∧ AddRef_if v s = Some s1 ∧
           log s' = log s ++ AddRef_events v ++ Release_events old s1)
  ∧ (∀ h r s v,
       handles s !! h = None → handles s !! r = Some v →
       (∀ p, v = Some p → is_alive s p = true) →
       ∃ s',
         ctor_copy_U h r s = Some s' ∧ ctor_copy h r s = Some s' ∧
         get h s' = Some (upcast v, s') ∧ handles s' !! r = Some v ∧
         log s' = log s ++ AddRef_events v ∧
         ∀ p, claim_count s' p = claim_count s p + hit v p).
Proof.
  split_and!.
  - intros d r s. by rewrite assign_copy_U_eq.
  - intros d r s v Hr.
    assert (get r s = Some (v, s)) as Hget by (by apply get_Some).
    assert (assign_copy_U d r s = assign_raw d (upcast v) s) as HU
      by (unfold assign_copy_U; by rewrite Hget).
    split_and!; try done.
    { unfold assign_copy, load. by rewrite Hr. }
    intros s' H. rewrite HU in H. unfold upcast in *.
    apply assign_raw_steps in H
      as (old & s1 & s2 & Hd & H1 & H2 & H3 & _ & _ & Hl2 & Hl3 & _ & _ & Hd3).
    pose proof (AddRef_if_handles _ _ _ H1) as E1.
    pose proof (Release_if_handles _ _ _ H2) as E2.
    split_and!.
    + apply store_Some in H3 as [_ ->]. simpl.
      destruct (decide (d = r)) as [->|]; simplify_map_eq; [done|congruence].
    + by apply get_Some.
    + exists old, s1. split_and!; congruence.
  - intros h r s v Hh Hr Hv.
    destruct (AddRef_if_alive v (set_handles <[h := v]> s)) as [s' Hs']; [done|].
    exists s'.
    assert (ctor_copy h r s = Some s') as E.
    { unfold ctor_copy, load, init. rewrite Hr. simpl. rewrite Hh. simpl.
      by rewrite lookup_insert_eq. }
    assert (h ≠ r) by congruence.
    pose proof (AddRef_if_handles _ _ _ Hs') as E1. simpl in E1.
    split_and!.
    + by rewrite ctor_copy_U_eq.
    + done.
    + apply get_Some. rewrite E1. by simplify_map_eq.
    + rewrite E1. by simplify_map_eq.
    + by apply AddRef_if_log in Hs'.
    + intros p. by rewrite (AddRef_if_claim_count _ _ _ p Hs').
Qed.

(** A copy assignment and a copy construction from a related type. *)
Lemma C7_copy_witness :
  (assign_copy_U 2 1
     (State {[7 := Object 1 true; 8 := Object 1 true]}
            {[1 := Some 7; 2 := Some 8]} ∅ [EvAddRef 7; EvAddRef 8])
   = assign_raw 2 (Some 7)
       (State {[7 := Object 1 true; 8 := Object 1 true]}
              {[1 := Some 7; 2 := Some 8]} ∅ [EvAddRef 7; EvAddRef 8]))
  ∧ (∃ s', ctor_copy_U 2 1
             (State {[7 := Object 1 true]} {[1 := Some 7]} ∅ [EvAddRef 7])
           = Some s' ∧
           get 2 s' = Some (Some 7, s') ∧ log s' = [EvAddRef 7; EvAddRef 7] ∧
           claim_count s' 7 = 2).
Proof.
  destruct C7_copy_assignment_delegates as (_ & Hassign & Hctor).
  split.
  - destruct (Hassign 2 1
      (State {[7 := Object 1 true; 8 := Object 1 true]}
             {[1 := Some 7; 2 := Some 8]} ∅ [EvAddRef 7; EvAddRef 8]) (Some 7))
      as (_ & _ & HU & _); [reflexivity|]. exact HU.
  - destruct (Hctor 2 1
      (State {[7 := Object 1 true]} {[1 := Some 7]} ∅ [EvAddRef 7]) (Some 7))
      as (s' & H & _ & Hg & _ & Hl & Hc); [reflexivity | reflexivity | |].
    + intros p [= <-]. reflexivity.
    + exists s'. split; [exact H|]. split; [exact Hg|]. split; [exact Hl|].
      exact (Hc 7).
Defined.

Section cocoa.

Import Cocoa.

Variable dchecks : bool.

Lemma first_call multithreaded :
  InitCocoaMultiThreading dchecks (Process None multithreaded 0)
  = Some (Process (Some true) true (if multithreaded then 0 else 1)).
Proof.
  unfold InitCocoaMultiThreading, RTC_DCHECK. destruct multithreaded; simpl; [done|].
  by rewrite andb_false_r.
Qed.

Lemma later_call π :
  is_cocoa_multithreaded π = Some true →
  InitCocoaMultiThreading dchecks π = Some π.
Proof.
  intros H. unfold InitCocoaMultiThreading, init_static. rewrite H. simpl.
  by rewrite H.
Qed.

Lemma call_settled π :
  settled π →
  ∃ π', InitCocoaMultiThreading dchecks π = Some π' ∧
        is_cocoa_multithreaded π' = Some true ∧ detached π' ≤ 1.
Proof.
  intros [[Hf Hd]|[Hf Hd]].
  - destruct π as [f m n]. simpl in *. subst. rewrite first_call.
    eexists. split; [done|]. simpl. split; [done|]. destruct m; lia.
  - exists π. by rewrite later_call.
Qed.

Lemma run_process_settled acts π :
  settled π →
  ∃ π', run_process dchecks acts π = Some π' ∧ settled π' ∧
        (called acts = true → is_cocoa_multithreaded π' = Some true) ∧
        (called acts = false →
           is_cocoa_multithreaded π' = is_cocoa_multithreaded π ∧
           detached π' = detached π).
Proof.
  revert π. induction acts as [|a acts IH]; intros π Hπ; simpl.
  - exists π. by split_and!.
  - destruct a; simpl.
    + destruct (call_settled π Hπ) as (π1 & H1 & Hf & Hd). rewrite H1. simpl.
      destruct (IH π1) as (π' & Hrun & Hs & Hc & Hn); [by right|].
      exists π'. split_and!; try done.
      intros _. destruct (called acts) eqn:E; [by apply Hc|].
      destruct (Hn eq_refl) as [-> _]. done.
    + destruct (IH (Process (is_cocoa_multithreaded π) true (detached π)))
        as (π' & Hrun & Hs & Hc & Hn); [done|].
      exists π'. by split_and!.
Qed.

End cocoa.

(** C8.  In a process that starts with the static not initialised, every
    sequence of calls of [InitCocoaMultiThreading], with other code
    detaching threads in between, runs to its end and detaches at most one
    thread.  Before the first call the static is not initialised; the first
    call initialises it from [[NSThread isMultiThreaded]], detaches a thread
    only when the answer was NO and sets the static afterwards; from then
    on the static stays YES and a call leaves the process as it is. *)
Theorem C8_engagement_at_most_once :
  ∀ dchecks multithreaded acts,
    ∃ π,
      Cocoa.run_process dchecks acts (Cocoa.fresh_process multithreaded) = Some π ∧
      Cocoa.detached π ≤ 1 ∧
      (Cocoa.called acts = false →
         Cocoa.is_cocoa_multithreaded π = None ∧ Cocoa.detached π = 0) ∧
      (Cocoa.called acts = true →
         Cocoa.is_cocoa_multithreaded π = Some true ∧
         Cocoa.InitCocoaMultiThreading dchecks π = Some π) ∧
      Cocoa.InitCocoaMultiThreading dchecks (Cocoa.fresh_process multithreaded)
      = Some (Cocoa.Process (Some true) true (if multithreaded then 0 else 1)).
Proof.
  intros dchecks multithreaded acts.
  destruct (run_process_settled dchecks acts (Cocoa.fresh_process multithreaded))
    as (π & Hrun & Hs & Hc & Hn); [by left|].
  exists π. split_and!.
  - done.
  - destruct Hs as [[_ ->]|[_ ?]]; lia.
  - intros E. by destruct (Hn E) as [-> ->].
  - intros E. split; [by apply Hc|]. apply later_call. by apply Hc.
  - apply first_call.
Qed.

(** Three calls in a process that starts single-threaded, with debug
    checks compiled in. *)
Lemma C8_engagement_witness :
  ∃ π,
    Cocoa.run_process true [Cocoa.Call; Cocoa.OtherThread; Cocoa.Call; Cocoa.Call]
      (Cocoa.fresh_process false) = Some π ∧
    Cocoa.detached π ≤ 1 ∧
    Cocoa.is_cocoa_multithreaded π = Some true ∧
    Cocoa.InitCocoaMultiThreading true π = Some π.
Proof.
  destruct (C8_engagement_at_most_once true false
    [Cocoa.Call; Cocoa.OtherThread; Cocoa.Call; Cocoa.Call])
    as (π & Hrun & Hd & _ & Hc & _).
  exists π. split; [exact Hrun|]. split; [exact Hd|]. apply Hc. reflexivity.
Defined.

(** C9.  [get()], the conversion to [T*], [operator*] and [operator->]
    return what the field holds ([operator*] the referent behind it) and
    leave the state as it is: the field, the counts and the log of
    [AddRef] and [Release] calls are unchanged.  [get()], the conversion
    and [operator->] also return a null field; [operator*] on a null field
    is undefined. *)
Theorem C9_accessors_are_pure :
  ∀ h s v,
    handles s !! h = Some v →
    get h s = Some (v, s) ∧ to_raw h s = Some (v, s) ∧ arrow h s = Some (v, s) ∧
    (∀ p, v = Some p → deref h s = Some (p, s)) ∧
    (v = None → deref h s = None).
Proof.
  intros h s v Hh. split_and!.
  - by apply get_Some.
  - by apply to_raw_Some.
  - by apply arrow_Some.
  - intros p ->. by apply deref_Some.
  - intros ->. unfold deref, load. by rewrite Hh.
Qed.

(** [get()] on a handle that holds a referent and on a null handle. *)
Lemma C9_accessors_witness :
  get 1 (State {[7 := Object 1 true]} {[1 := Some 7]} ∅ [EvAddRef 7])
  = Some (Some 7, State {[7 := Object 1 true]} {[1 := Some 7]} ∅ [EvAddRef 7])
  ∧ get 1 (State ∅ {[1 := None]} ∅ [])
    = Some (None, State ∅ {[1 := None]} ∅ []).
Proof.
  split.
  - apply (C9_accessors_are_pure 1
      (State {[7 := Object 1 true]} {[1 := Some 7]} ∅ [EvAddRef 7]) (Some 7)).
    reflexivity.
  - apply (C9_accessors_are_pure 1 (State ∅ {[1 := None]} ∅ []) None).
    reflexivity.
Defined.

(** C10.  [release()] on a handle whose field is null is defined: it
    returns null and leaves the state as it is, so the field stays null and
    neither [AddRef] nor [Release] is called; the bookkeeping of a sequence
    credits no claim. *)
Theorem C10_release_of_null :
  ∀ h s,
    handles s !! h = Some None →
    release h s = Some (None, s) ∧
    ∀ g, step (ReleaseOp h) (s, g) = Some (s, g).
Proof.
  intros h s Hh.
  assert (release h s = Some (None, s)) as E.
  { apply release_Some. split; [done|]. symmetry. by apply set_handles_id. }
  split; [done|]. intros g. simpl. rewrite E. simpl. by destruct g.
Qed.

(** [release()] on a null handle. *)
Lemma C10_release_of_null_witness :
  release 1 (State ∅ {[1 := None]} ∅ []) = Some (None, State ∅ {[1 := None]} ∅ []).
Proof.
  apply (C10_release_of_null 1 (State ∅ {[1 := None]} ∅ [])). reflexivity.
Defined.

(** ** No operation on handles goes wrong *)

Lemma well_formed_insert s p o f :
  well_formed s → (alive o = false → ref_count o = 0) →
  objs (f s) = <[p := o]> (objs s) → well_formed (f s).
Proof.
  intros Hwf Ho E q o' Hq Ha. rewrite E in Hq.
  destruct (decide (q = p)) as [->|]; simplify_map_eq; eauto.
Qed.

Lemma well_formed_objs s s' : objs s' = objs s → well_formed s → well_formed s'.
Proof. intros E Hwf q o. rewrite E. apply Hwf. Qed.

Lemma AddRef_if_well_formed v s s' :
  AddRef_if v s = Some s' → well_formed s → well_formed s'.
Proof.
  intros H Hwf. invert_op; [|done].
  intros q o Hq Ha. simpl in Hq.
  destruct (decide (q = n)) as [->|]; simplify_map_eq; eauto.
Qed.

Lemma Release_if_well_formed v s s' :
  Release_if v s = Some s' → well_formed s → well_formed s'.
Proof.
  intros H Hwf. destruct v as [p|]; simpl in H; [|by injection H as <-].
  apply Release_Some in H as (n & Hn & ->).
  intros q o Hq Ha. simpl in Hq.
  destruct (decide (q = p)) as [->|]; simplify_map_eq; [|by eauto].
  simpl in *. by destruct n.
Qed.

Lemma held_backed s g h p :
  safe (s, g) → handles s !! h = Some (Some p) →
  ∃ n, objs s !! p = Some (Object (S n) true).
Proof.
  intros (Hb & Hwf & Hs) Hh. specialize (Hb p). specialize (Hs p). simpl in *.
  unfold handle_count in Hb. rewrite (pointing_split _ _ _ p Hh) in Hb.
  unfold hit in Hb. rewrite decide_True in Hb by done.
  unfold claim_count, refs_of in Hb.
  destruct (objs s !! p) as [[n a]|] eqn:Ho; [|lia].
  destruct a; [|specialize (Hwf p _ Ho eq_refl); simpl in *; lia].
  destruct n; simpl in *; [lia|eauto].
Qed.

Lemma Release_backed p n s :
  objs s !! p = Some (Object (S n) true) → is_Some (Release p s).
Proof. intros H. eexists. apply Release_Some. eauto. Qed.

Lemma Release_if_held s g h v :
  safe (s, g) → handles s !! h = Some v → is_Some (Release_if v s).
Proof.
  intros Hsafe Hh. destruct v as [p|]; simpl; [|by eexists].
  destruct (held_backed s g h p Hsafe Hh) as [n Hn].
  eexists. apply Release_Some. eauto.
Qed.

Lemma dtor_progress s g h : safe (s, g) → live s h → is_Some (dtor h s).
Proof.
  intros Hsafe [v Hh].
  destruct (Release_if_held s g h v Hsafe Hh) as [s1 H1].
  unfold dtor, load. rewrite Hh. simpl. rewrite H1. by eexists.
Qed.

Lemma assign_raw_progress s g h p :
  safe (s, g) → live s h → valid_ptr s p → is_Some (assign_raw h p s).
Proof.
  intros Hsafe [q Hh] Hp.
  destruct (AddRef_if_alive p s Hp) as [s1 H1].
  pose proof (AddRef_if_handles _ _ _ H1) as E1.
  assert (is_Some (Release_if q s1)) as [s2 H2].
  { destruct q as [q|]; simpl; [|by eexists].
    destruct (held_backed s g h q Hsafe Hh) as [n Hn].
    destruct p as [p|]; simpl in H1; [|injection H1 as <-; by eapply Release_backed].
    apply AddRef_Some in H1 as (m & Hm & ->).
    destruct (decide (q = p)) as [->|].
    - apply (Release_backed p (S n)). simpl. by simplify_map_eq.
    - apply (Release_backed q n). simpl. by simplify_map_eq. }
  pose proof (Release_if_handles _ _ _ H2) as E2.
  unfold assign_raw, load. rewrite H1. simpl. rewrite E1, Hh. simpl. rewrite H2. simpl.
  unfold store. rewrite E2, E1, Hh. by eexists.
Qed.

Lemma neutral_safe s s' g :
  neutral s s' → well_formed s' → safe (s, g) → safe (s', g).
Proof. intros Hn Hwf (Hb & _ & Hs). split_and!; eauto using neutral_balanced. Qed.

Lemma assign_move_progress s g h r :
  safe (s, g) → live s h → live s r → is_Some (assign_move h r s).
Proof.
  intros Hsafe [vh Hh] [vr Hr]. pose proof (temp_hid_fresh s) as Ht.
  unfold assign_move. set (t := temp_hid s) in *.
  assert (t ≠ h) by congruence. assert (t ≠ r) by congruence.
  destruct (ctor_move t r s) as [s1|] eqn:H1; [|exfalso; revert H1; by run_op].
  simpl. destruct (swap t h s1) as [s2|] eqn:H2.
  - simpl. apply (dtor_progress s2 g).
    + assert (objs s1 = objs s) as E1 by (clear H2; by invert_op).
      assert (objs s2 = objs s1) as E2 by (clear H1 E1; by invert_op).
      eapply neutral_safe; [by eapply swap_neutral| |].
      { eapply well_formed_objs; [done|]. eapply well_formed_objs; [done|]. apply Hsafe. }
      eapply neutral_safe; [by eapply ctor_move_neutral| |done].
      eapply well_formed_objs; [done|]. apply Hsafe.
    + clear Hsafe. unfold live. invert_op; simpl; by simplify_map_eq.
  - exfalso. clear Hsafe. revert H1 H2.
    destruct (decide (h = r)) as [->|]; run_op; intros [= <-]; by run_op.
Qed.

Lemma well_formed_emit es s : well_formed s → well_formed (emit es s).
Proof. done. Qed.

Lemma well_formed_set_handles f s : well_formed s → well_formed (set_handles f s).
Proof. done. Qed.

Lemma well_formed_set_slots f s : well_formed s → well_formed (set_slots f s).
Proof. done. Qed.

Lemma well_formed_set_objs p o s :
  well_formed s → (alive o = false → ref_count o = 0) →
  well_formed (set_objs <[p := o]> s).
Proof. intros Hwf Ho. by eapply (well_formed_insert s p o). Qed.

Ltac well_formed_tac :=
  repeat first
    [ assumption
    | apply well_formed_emit
    | apply well_formed_set_handles
    | apply well_formed_set_slots
    | apply well_formed_set_objs;
      [|simpl; try done; try (intros ?%bool_decide_eq_false; lia)] ].

Lemma step_well_formed o σ σ' :
  step o σ = Some σ' → well_formed σ.1 → well_formed σ'.1.
Proof.
  destruct σ as [s g], σ' as [s' g']. simpl. intros H Hwf.
  destruct o as [p|l v|h|h p|h r|h r|h r|h r|h|h|h|h|h|h|h p|h r|h r|h r|h r|h [r|l]|h r];
    simpl in H; unfold assign_move, assign_move_U in H;
    invert_op; well_formed_tac.
Qed.

Lemma step_solvent o s g s' g' :
  step o (s, g) = Some (s', g') → permitted o (s, g) → solvent g → solvent g'.
Proof.
  intros H Hp Hs q. specialize (Hs q).
  destruct o as [p|l v|h|h p|h r|h r|h r|h r|h|h|h|h|h|h|h p|h r|h r|h r|h r|h [r|l]|h r];
    simpl in H; apply bind_Some in H as (x & Hx & H);
    try (by injection H as <- <-);
    try (destruct x as [v s'']; by injection H as <- <-).
  - destruct x as [v s'']. injection H as <- <-. simpl. rewrite tally_credit. lia.
  - apply bind_Some in H as (out & Hout & H).
    apply bind_Some in H as (inn & Hinn & H). injection H as <- <-.
    destruct Hp as [[vh Hh] (v & Hl & Hv)]. simpl.
    rewrite !tally_credit.
    assert (inn = v) as -> by (clear Hs Hv; invert_op; by simplify_map_eq).
    unfold hit. case_decide as E; [|lia]. specialize (Hv q E). lia.
Qed.

Lemma valid_ptr_lookup s p :
  valid_ptr s (Some p) → ∃ n, objs s !! p = Some (Object n true).
Proof.
  intros H. specialize (H p eq_refl). unfold is_alive in H.
  destruct (objs s !! p) as [[n []]|]; simplify_eq/=. eauto.
Qed.

Lemma held_valid s g h v : safe (s, g) → handles s !! h = Some v → valid_ptr s v.
Proof.
  intros Hsafe Hh p ->. destruct (held_backed s g h p Hsafe Hh) as [n Hn].
  unfold is_alive. by rewrite Hn.
Qed.

Lemma is_Some_bind {A B} (m : option A) (f : A → option B) :
  is_Some m → (∀ x, m = Some x → is_Some (f x)) → is_Some (m ≫= f).
Proof. intros [x ->] Hf. simpl. by apply Hf. Qed.

Lemma ctor_raw_progress s h p :
  handles s !! h = None → valid_ptr s p → is_Some (ctor_raw h p s).
Proof.
  intros Hh Hp. destruct p as [p|]; [|by run_op].
  destruct (valid_ptr_lookup s p Hp) as [n Hn]. by run_op.
Qed.

Lemma ctor_copy_progress s g h r :
  safe (s, g) → handles s !! h = None → live s r → is_Some (ctor_copy h r s).
Proof.
  intros Hsafe Hh [v Hr]. assert (h ≠ r) by congruence.
  destruct v as [p|]; [|by run_op].
  destruct (held_backed s g r p Hsafe Hr) as [n Hn]. by run_op.
Qed.

Lemma swap_pp_progress s h pp :
  live s h → is_Some (read pp s) → is_Some (swap_pp h pp s).
Proof.
  intros [vh Hh] [v Hv]. destruct pp as [r|l]; simpl in Hv.
  - destruct (decide (h = r)) as [->|]; by run_op.
  - by run_op.
Qed.

Lemma step_progress o σ : safe σ → permitted o σ → is_Some (step o σ).
Proof.
  destruct σ as [s g]. intros Hsafe Hp.
  destruct o as [p|l v|h|h p|h r|h r|h r|h r|h|h|h|h|h|h|h p|h r|h r|h r|h r|h [r|l]|h r];
    simpl in Hp; simpl;
    rewrite ?ctor_copy_U_eq, ?ctor_move_U_eq, ?assign_copy_U_eq, ?assign_move_U_eq;
    unfold live in Hp; destruct_and?;
    repeat match goal with H : is_Some _ |- _ => destruct H as [? H] end.
  - by run_op.
  - by run_op.
  - by run_op.
  - apply is_Some_bind; [apply ctor_raw_progress; assumption|by eexists].
  - apply is_Some_bind; [eapply ctor_copy_progress; [eassumption|assumption|by eexists]|by eexists].
  - apply is_Some_bind; [eapply ctor_copy_progress; [eassumption|assumption|by eexists]|by eexists].
  - assert (h ≠ r) by congruence. by run_op.
  - assert (h ≠ r) by congruence. by run_op.
  - apply is_Some_bind; [eapply dtor_progress; [eassumption|by eexists]|by eexists].
  - by run_op.
  - by run_op.
  - destruct Hp as [p Hp]. by run_op.
  - by run_op.
  - by run_op.
  - apply is_Some_bind; [|by eexists].
    eapply assign_raw_progress; [eassumption|by eexists|assumption].
  - apply is_Some_bind; [|by eexists]. unfold assign_copy, load.
    match goal with H : handles s !! r = Some _ |- _ => rewrite H end. simpl.
    eapply assign_raw_progress; [eassumption|by eexists|by eapply held_valid].
  - apply is_Some_bind; [|by eexists]. unfold assign_copy, load.
    match goal with H : handles s !! r = Some _ |- _ => rewrite H end. simpl.
    eapply assign_raw_progress; [eassumption|by eexists|by eapply held_valid].
  - apply is_Some_bind; [|by eexists].
    eapply assign_move_progress; [eassumption|by eexists|by eexists].
  - apply is_Some_bind; [|by eexists].
    eapply assign_move_progress; [eassumption|by eexists|by eexists].
  - apply is_Some_bind; [apply swap_pp_progress; by eexists|by eexists].
  - match goal with H : ∃ _, _ |- _ => destruct H as (v & Hl & _) end.
    destruct (swap_pp_progress s h (Ext l)) as [s' Hs']; [by eexists|by eexists|].
    rewrite Hs'. simpl. clear Hsafe. invert_op. by run_op.
  - apply is_Some_bind; [apply swap_pp_progress; by eexists|by eexists].
Qed.

(** Under the contract of the caller no operation on handles goes wrong:
    no [AddRef] or [Release] through a dangling pointer and no [Release]
    without a claim, and the accounts stay balanced. *)
Theorem handle_operations_safe o σ :
  safe σ → permitted o σ → ∃ σ', step o σ = Some σ' ∧ safe σ'.
Proof.
  intros Hsafe Hp. destruct (step_progress o σ Hsafe Hp) as [σ' H].
  exists σ'. split; [done|]. destruct Hsafe as (Hb & Hwf & Hs).
  split_and!.
  - by eapply step_balanced.
  - by eapply step_well_formed.
  - destruct σ as [s g], σ' as [s' g']. by eapply step_solvent.
Qed.

Lemma safe_start : safe start.
Proof.
  split_and!.
  - apply balanced_empty.
  - intros p o. simpl. by rewrite lookup_empty.
  - intros p. simpl. unfold tally. rewrite lookup_empty. simpl. lia.
Qed.

(** ** Construction and destruction *)

Lemma set_handles_delete_insert h v s :
  handles s !! h = None → set_handles (delete h) (set_handles <[h := v]> s) = s.
Proof.
  intros H. destruct s as [o m sl lg]. unfold set_handles. simpl in *.
  by rewrite delete_insert_id.
Qed.

(** X1.  A default-constructed handle is null and its construction calls
    nothing; destroying a null handle calls nothing either, so constructing
    a handle by default and destroying it gives back the state as it was. *)
Theorem X1_default_construct_destroy :
  (∀ h s,
     handles s !! h = None →
     ∃ s1,
       ctor_default h s = Some s1 ∧ handles s1 !! h = Some None ∧
       objs s1 = objs s ∧ log s1 = log s ∧ dtor h s1 = Some s)
  ∧ (∀ h s,
       handles s !! h = Some None →
       ∃ s', dtor h s = Some s' ∧ handles s' = delete h (handles s) ∧
             objs s' = objs s ∧ slots s' = slots s ∧ log s' = log s).
Proof.
  split.
  - intros h s Hh. exists (set_handles <[h := None]> s).
    split_and!; try done.
    + unfold ctor_default, init. by rewrite Hh.
    + simpl. apply lookup_insert_eq.
    + rewrite dtor_null by (simpl; apply lookup_insert_eq).
      by rewrite set_handles_delete_insert.
  - intros h s Hh. rewrite (dtor_null h s Hh). by eexists.
Qed.

(** A handle 1 constructed by default next to a handle 2 and destroyed. *)
Lemma X1_default_construct_destroy_witness :
  ∃ s1, ctor_default 1 (State {[7 := Object 1 true]} {[2 := Some 7]} ∅ [EvAddRef 7])
        = Some s1 ∧
        dtor 1 s1 = Some (State {[7 := Object 1 true]} {[2 := Some 7]} ∅ [EvAddRef 7]).
Proof.
  destruct X1_default_construct_destroy as [Hround _].
  destruct (Hround 1 (State {[7 := Object 1 true]} {[2 := Some 7]} ∅ [EvAddRef 7]))
    as (s1 & Hc & _ & _ & _ & Hd); [reflexivity|].
  exists s1. split; [exact Hc | exact Hd].
Defined.

(** X2.  The constructor from a raw pointer stores the pointer and, when it
    is not null, calls [AddRef] on it once: the count of that referent
    grows by one, one more handle points at it, and no other count changes.
    With a null pointer it is the default constructor. *)
Theorem X2_raw_construct :
  (∀ h p s,
     handles s !! h = None → is_alive s p = true →
     ∃ s',
       ctor_raw h (Some p) s = Some s' ∧
       handles s' = <[h := Some p]> (handles s) ∧
       log s' = log s ++ [EvAddRef p] ∧
       claim_count s' p = S (claim_count s p) ∧
       handle_count s' p = S (handle_count s p) ∧
       (∀ q, q ≠ p → claim_count s' q = claim_count s q ∧
                      handle_count s' q = handle_count s q) ∧
       (∀ q, is_alive s' q = is_alive s q))
  ∧ (∀ h s, ctor_raw h None s = ctor_default h s).
Proof.
  split.
  - intros h p s Hh Hp.
    destruct (valid_ptr_lookup s p) as [n Hn]; [by intros ? [= <-]|].
    eexists. split; [by run_op|].
    split_and!; try done.
    + count_at p.
    + count_at p.
    + intros q Hq. split; count_at q.
    + intros q. unfold is_alive. simpl.
      destruct (decide (q = p)) as [->|]; by simplify_map_eq.
  - intros h s. unfold ctor_raw, ctor_default, init, load.
    destruct (handles s !! h); [done|]. simpl. by rewrite lookup_insert_eq.
Qed.

(** A second handle on a referent that has one claim. *)
Lemma X2_raw_construct_witness :
  ∃ s', ctor_raw 2 (Some 7)
          (State {[7 := Object 1 true]} {[1 := Some 7]} ∅ [EvAddRef 7]) = Some s' ∧
        claim_count s' 7 = 2 ∧ handle_count s' 7 = 2.
Proof.
  destruct X2_raw_construct as [Hraw _].
  destruct (Hraw 2 7 (State {[7 := Object 1 true]} {[1 := Some 7]} ∅ [EvAddRef 7]))
    as (s' & H & _ & _ & Hc & Hh & _); [reflexivity | reflexivity |].
  exists s'. split; [exact H|]. split; [exact Hc | exact Hh].
Defined.

(** X3.  Copying a handle and destroying the copy gives back the referents
    and the handles as they were: the [AddRef] of the copy and the
    [Release] of its destructor cancel, and the referent is not destroyed
    (the original still holds its claim). *)
Theorem X3_copy_destroy_round_trip :
  ∀ a b s v,
    handles s !! a = Some v → handles s !! b = None →
    (∀ p, v = Some p → is_alive s p = true ∧ 1 ≤ claim_count s p) →
    ∃ s1 s2,
      ctor_copy b a s = Some s1 ∧ dtor b s1 = Some s2 ∧
      handles s1 !! b = Some v ∧ handles s1 !! a = Some v ∧
      (∀ p, claim_count s1 p = claim_count s p + hit v p) ∧
      objs s2 = objs s ∧ handles s2 = handles s ∧ slots s2 = slots s ∧
      log s2 = log s ++ match v with
                        | Some p => [EvAddRef p; EvRelease p]
                        | None => []
                        end.
Proof.
  intros a b s v Ha Hb Hv. assert (a ≠ b) by congruence.
  destruct v as [p|].
  - destruct (Hv p eq_refl) as [Hal Hc].
    destruct (valid_ptr_lookup s p) as [n Hn]; [by intros ? [= <-]|].
    unfold claim_count in Hc. rewrite (refs_of_lookup _ _ _ Hn) in Hc. simpl in Hc.
    destruct n as [|n]; [lia|].
    eexists _, _. split; [by run_op|]. split; [by run_op|].
    split_and!; simpl; try done.
    + by simplify_map_eq.
    + by simplify_map_eq.
    + intros q. count_at q.
    + rewrite insert_insert_eq. by apply insert_id.
    + by apply delete_insert_id.
    + by rewrite <-app_assoc.
  - eexists _, _. split; [by run_op|]. split; [by run_op|].
    split_and!; simpl; try done.
    + by simplify_map_eq.
    + by simplify_map_eq.
    + by apply delete_insert_id.
    + by rewrite app_nil_r.
Qed.

(** Handle 2 copied from handle 1 and destroyed. *)
Lemma X3_copy_destroy_witness :
  ∃ s1 s2,
    ctor_copy 2 1 (State {[7 := Object 1 true]} {[1 := Some 7]} ∅ [EvAddRef 7])
    = Some s1 ∧ dtor 2 s1 = Some s2 ∧
    objs s2 = {[7 := Object 1 true]} ∧ handles s2 = {[1 := Some 7]} ∧
    log s2 = [EvAddRef 7; EvAddRef 7; EvRelease 7].
Proof.
  destruct (X3_copy_destroy_round_trip 1 2
    (State {[7 := Object 1 true]} {[1 := Some 7]} ∅ [EvAddRef 7]) (Some 7))
    as (s1 & s2 & Hc & Hd & _ & _ & _ & Ho & Hh & _ & Hl);
    [reflexivity | reflexivity | |].
  - intros p [= <-]. split; [reflexivity | simpl; vm_compute; lia].
  - exists s1, s2. split; [exact Hc|]. split; [exact Hd|].
    split; [exact Ho|]. split; [exact Hh | exact Hl].
Defined.



(** ** How the members compose *)

Lemma AddRef_if_set_handles f v s :
  AddRef_if v (set_handles f s) = set_handles f <$> AddRef_if v s.
Proof.
  destruct v as [p|]; simpl; [|done]. unfold AddRef. simpl.
  destruct (objs s !! p) as [[n []]|]; done.
Qed.

Lemma set_handles_set_handles f g s :
  set_handles f (set_handles g s) = set_handles (f ∘ g) s.
Proof. done. Qed.

Lemma set_handles_ext f g s :
  f (handles s) = g (handles s) → set_handles f s = set_handles g s.
Proof. intros E. unfold set_handles. by rewrite E. Qed.

(** X5.  Assigning [nullptr] releases what the handle holds, as its
    destructor does: destroying a handle is assigning [nullptr] to it and
    ending its life.  After [h = nullptr] the handle is alive and null. *)
Theorem X5_assign_null_releases :
  (∀ h s, dtor h s = s' ← assign_raw h None s; Some (set_handles (delete h) s'))
  ∧ (∀ h s v,
       handles s !! h = Some v →
       assign_raw h None s
       = (s1 ← Release_if v s; Some (set_handles <[h := None]> s1))
       ∧ ∀ s', assign_raw h None s = Some s' →
           handles s' = <[h := None]> (handles s) ∧
           log s' = log s ++ Release_events v s ∧
           (∀ p, claim_count s' p + hit v p = claim_count s p)).
Proof.
  split.
  - intros h s. unfold dtor, assign_raw, load, store. simpl.
    destruct (handles s !! h) as [v|] eqn:Hh; simpl; [|done].
    destruct (Release_if v s) as [s1|] eqn:H1; simpl; [|done].
    rewrite (Release_if_handles _ _ _ H1), Hh. simpl.
    rewrite set_handles_set_handles. f_equal. apply set_handles_ext. simpl.
    by rewrite delete_insert_eq.
  - intros h s v Hh.
    assert (assign_raw h None s
            = (s1 ← Release_if v s; Some (set_handles <[h := None]> s1))) as E.
    { unfold assign_raw, load, store. simpl. rewrite Hh. simpl.
      destruct (Release_if v s) as [s1|] eqn:H1; simpl; [|done].
      by rewrite (Release_if_handles _ _ _ H1), Hh. }
    split; [done|]. intros s' H. rewrite E in H.
    apply bind_Some in H as (s1 & H1 & H). injection H as <-.
    split_and!; simpl.
    + by rewrite (Release_if_handles _ _ _ H1).
    + by apply Release_if_log.
    + intros p. by apply (Release_if_claim_count v s s1 p).
Qed.

(** [h = nullptr] on the only handle of a referent. *)
Lemma X5_assign_null_witness :
  ∃ s', assign_raw 1 None
          (State {[7 := Object 1 true]} {[1 := Some 7]} ∅ [EvAddRef 7]) = Some s' ∧
        handles s' = <[1 := None]> {[1 := Some 7]} ∧
        log s' = [EvAddRef 7; EvRelease 7; EvDelete 7].
Proof.
  destruct X5_assign_null_releases as [_ Hnull].
  destruct (Hnull 1 (State {[7 := Object 1 true]} {[1 := Some 7]} ∅ [EvAddRef 7])
              (Some 7)) as [E Hpost]; [reflexivity|].
  eexists. split; [rewrite E; vm_compute; reflexivity|].
  edestruct Hpost as (Hh & Hl & _); [rewrite E; vm_compute; reflexivity|].
  split; [exact Hh | exact Hl].
Defined.

(** X6.  Swapping is symmetric in the two handles, swapping twice with the
    same handle or variable gives back the state as it was, and swapping a
    handle with itself does nothing. *)
Theorem X6_swap_involution :
  (∀ h r s, swap h r s = swap r h s)
  ∧ (∀ h pp s s', swap_pp h pp s = Some s' → swap_pp h pp s' = Some s)
  ∧ (∀ h s, is_Some (handles s !! h) → swap h h s = Some s).
Proof.
  split_and!.
  - intros h r s. unfold swap, swap_pp, read, write, load, store.
    destruct (decide (h = r)) as [->|Hne]; [done|].
    destruct (handles s !! h) as [vh|] eqn:Hh, (handles s !! r) as [vr|] eqn:Hr;
      repeat (cbn [handles set_handles mbind option_bind]; simplify_map_eq);
      try done.
    rewrite !set_handles_set_handles. apply (f_equal Some), set_handles_ext. simpl.
    by apply insert_insert_ne.
  - intros h pp s s' H.
    assert (∃ vh vp, handles s !! h = Some vh ∧ read pp s = Some vp)
      as (vh & vp & Hh & Hp).
    { unfold swap_pp, load in H. destruct (handles s !! h); [|done].
      destruct (read pp s); [|done]. eauto. }
    destruct pp as [r|l]; simpl in Hp.
    + destruct (decide (r = h)) as [->|Hne]; revert H; run_op; intros [= <-]; run_op;
        apply (f_equal Some); destruct s as [o m sl lg]; unfold set_handles;
        simpl in *; f_equal; apply map_eq; intros k;
        destruct (decide (k = h)) as [->|]; simplify_map_eq; try done;
        destruct (decide (k = r)) as [->|]; by simplify_map_eq.
    + revert H. run_op. intros [= <-]. run_op.
      apply (f_equal Some). destruct s as [o m sl lg].
      unfold set_handles, set_slots. simpl in *. f_equal.
      * rewrite insert_insert_eq. by apply insert_id.
      * rewrite insert_insert_eq. by apply insert_id.
  - intros h s [v Hh]. run_op. by rewrite !(set_handles_id h v s Hh).
Qed.

(** Two swaps of handle 1 with an external variable. *)
Lemma X6_swap_witness :
  ∃ s', swap_pp 1 (Ext 0)
          (State {[7 := Object 1 true]} {[1 := Some 7]} {[0 := None]} [EvAddRef 7])
        = Some s' ∧
        swap_pp 1 (Ext 0) s'
        = Some (State {[7 := Object 1 true]} {[1 := Some 7]} {[0 := None]} [EvAddRef 7]).
Proof.
  destruct X6_swap_involution as (_ & Hinv & _).
  eexists. split; [vm_compute; reflexivity|].
  apply Hinv. vm_compute. reflexivity.
Defined.

(** X7.  Copy assignment does what the copy-and-swap idiom does: build a
    temporary copy of the source, swap it with the destination and destroy
    it.  The same calls are made in the same order, and the same state
    results. *)
Theorem X7_copy_assignment_is_copy_and_swap :
  ∀ h r s,
    is_Some (handles s !! h) →
    assign_copy h r s
    = (let t := temp_hid s in
       s1 ← ctor_copy t r s; s2 ← swap t h s1; dtor t s2).
Proof.
  intros h r s [old Hh]. pose proof (temp_hid_fresh s) as Ht.
  cbv zeta. set (t := temp_hid s) in *. assert (t ≠ h) by congruence.
  unfold assign_copy, assign_raw, ctor_copy, swap, swap_pp, read, write, dtor,
    load, store, init.
  destruct (handles s !! r) as [v|] eqn:Hr; simpl; [|done].
  rewrite Ht. simpl. rewrite lookup_insert_eq. simpl.
  rewrite AddRef_if_set_handles.
  destruct (AddRef_if v s) as [sa|] eqn:Ha; simpl; [|done].
  pose proof (AddRef_if_handles _ _ _ Ha) as Ea.
  repeat (cbn [handles set_handles mbind option_bind]; rewrite ?Ea; simplify_map_eq).
  rewrite !Release_if_set_handles.
  destruct (Release_if old sa) as [sr|] eqn:Hrel; simpl; [|done].
  pose proof (Release_if_handles _ _ _ Hrel) as Er.
  rewrite Er, Ea, Hh. simpl. apply (f_equal Some).
  rewrite !set_handles_set_handles. apply set_handles_ext. simpl.
  rewrite Er, Ea. apply map_eq. intros k.
  destruct (decide (k = t)) as [->|]; [by simplify_map_eq|].
  destruct (decide (k = h)) as [->|]; by simplify_map_eq.
Qed.

(** Handle 2 assigned from handle 1, on two referents. *)
Lemma X7_copy_and_swap_witness :
  assign_copy 2 1
    (State {[7 := Object 1 true; 8 := Object 1 true]}
           {[1 := Some 7; 2 := Some 8]} ∅ [EvAddRef 7; EvAddRef 8])
  = Some (State {[7 := Object 2 true; 8 := Object 0 false]}
                {[1 := Some 7; 2 := Some 7]} ∅
                [EvAddRef 7; EvAddRef 8; EvAddRef 7; EvRelease 8; EvDelete 8]).
Proof.
  rewrite X7_copy_assignment_is_copy_and_swap by (by eexists).
  vm_compute. reflexivity.
Defined.

(** X8.  A pointer obtained from [release()] still carries its claim, and
    the constructor from a raw pointer registers a claim of its own: after
    [scoped_refptr<T> b(a.release())] the same number of handles points at
    the referent, but its count is one higher. *)
Theorem X8_release_then_construct_adds_claim :
  ∀ a b p s,
    handles s !! a = Some (Some p) → handles s !! b = None →
    is_alive s p = true →
    ∃ s1 s2,
      release a s = Some (Some p, s1) ∧ ctor_raw b (Some p) s1 = Some s2 ∧
      handles s2 = <[b := Some p]> (<[a := None]> (handles s)) ∧
      handle_count s2 p = handle_count s p ∧
      claim_count s2 p = S (claim_count s p) ∧
      log s2 = log s ++ [EvAddRef p].
Proof.
  intros a b p s Ha Hb Hal. assert (a ≠ b) by congruence.
  destruct (valid_ptr_lookup s p) as [n Hn]; [by intros ? [= <-]|].
  eexists _, _. split; [by run_op|]. split; [by run_op|].
  split_and!; try done.
  - count_at p.
  - count_at p.
Qed.

(** The pointer released by handle 1 given to the constructor of handle 2. *)
Lemma X8_release_then_construct_witness :
  ∃ s1 s2,
    release 1 (State {[7 := Object 1 true]} {[1 := Some 7]} ∅ [EvAddRef 7])
    = Some (Some 7, s1) ∧
    ctor_raw 2 (Some 7) s1 = Some s2 ∧
    handle_count s2 7 = 1 ∧ claim_count s2 7 = 2.
Proof.
  destruct (X8_release_then_construct_adds_claim 1 2 7
    (State {[7 := Object 1 true]} {[1 := Some 7]} ∅ [EvAddRef 7]))
    as (s1 & s2 & Hr & Hc & _ & Hh & Hcc & _);
    [reflexivity | reflexivity | reflexivity |].
  exists s1, s2. split; [exact Hr|]. split; [exact Hc|]. split; [exact Hh | exact Hcc].
Defined.

(** X9.  A claim detached by [release()] can be given to a null handle
    through [swap(T** pp)] without any call: after [T* x = a.release();
    b.swap(&x);] the handle [b] holds what [a] held, [a] and [x] are null,
    and every count and the log are as before, as after a move
    construction. *)
Theorem X9_release_then_swap_adopts :
  ∀ a b l s v,
    handles s !! a = Some v → handles s !! b = Some None → a ≠ b →
    slots s !! l = None →
    ∃ s1 s2 s3,
      release a s = Some (v, s1) ∧ declare_slot l v s1 = Some s2 ∧
      swap_pp b (Ext l) s2 = Some s3 ∧
      handles s3 = <[b := v]> (<[a := None]> (handles s)) ∧
      slots s3 !! l = Some None ∧
      objs s3 = objs s ∧ log s3 = log s ∧
      (∀ p, handle_count s3 p = handle_count s p).
Proof.
  intros a b l s v Ha Hb Hab Hl.
  eexists _, _, _. split; [by run_op|]. split; [by run_op|]. split; [by run_op|].
  split_and!; simpl; try done.
  - by simplify_map_eq.
  - intros p. count_at p.
Qed.

(** The claim of handle 1 moved to the null handle 2 through a variable. *)
Lemma X9_release_then_swap_witness :
  ∃ s1 s2 s3,
    release 1 (State {[7 := Object 1 true]} {[1 := Some 7; 2 := None]} ∅ [EvAddRef 7])
    = Some (Some 7, s1) ∧
    declare_slot 0 (Some 7) s1 = Some s2 ∧ swap_pp 2 (Ext 0) s2 = Some s3 ∧
    handles s3 = <[2 := Some 7]> (<[1 := None]> {[1 := Some 7; 2 := None]}) ∧
    log s3 = [EvAddRef 7].
Proof.
  destruct (X9_release_then_swap_adopts 1 2 0
    (State {[7 := Object 1 true]} {[1 := Some 7; 2 := None]} ∅ [EvAddRef 7]) (Some 7))
    as (s1 & s2 & s3 & Hr & Hd & Hs & Hh & _ & _ & Hl & _);
    [reflexivity | reflexivity | lia | reflexivity |].
  exists s1, s2, s3. split; [exact Hr|]. split; [exact Hd|]. split; [exact Hs|].
  split; [exact Hh | exact Hl].
Defined.

(** ** Sequences that keep the contract *)

Lemma safe_no_dangling s g : safe (s, g) → no_dangling s.
Proof.
  intros Hsafe h p Hh. destruct (held_backed s g h p Hsafe Hh) as [n Hn].
  unfold is_alive, claim_count. rewrite (refs_of_lookup _ _ _ Hn), Hn. simpl.
  split; [done|lia].
Qed.

Lemma permitted_run_safe os σ :
  safe σ → permitted_run os σ → ∃ σ', run os σ = Some σ' ∧ safe σ'.
Proof.
  revert σ. induction os as [|o os IH]; intros σ Hsafe Hp; simpl in *.
  - by exists σ.
  - destruct Hp as [Ho Hp].
    destruct (handle_operations_safe o σ Hsafe Ho) as (σ1 & H1 & Hsafe1).
    rewrite H1 in *. simpl. by apply IH.
Qed.

(** X10.  A program that keeps the contract of the class never goes wrong.
    From a state in which the claims are accounted for, every sequence of
    operations with live handles as operands, raw pointers to live
    referents, and claims of the caller behind what it swaps in, runs to
    its end: no [AddRef] or [Release] reaches a destroyed referent and no
    [Release] is made without a claim.  At the end the claims are still
    accounted for and no handle dangles: every handle that is not null
    points at a live referent with at least one claim. *)
Theorem X10_permitted_sequences_are_safe :
  ∀ os σ,
    safe σ → permitted_run os σ →
    ∃ σ', run os σ = Some σ' ∧ safe σ' ∧ no_dangling σ'.1.
Proof.
  intros os σ Hsafe Hp.
  destruct (permitted_run_safe os σ Hsafe Hp) as (σ' & Hrun & Hsafe').
  exists σ'. split_and!; [done..|]. destruct σ' as [s' g'].
  by eapply safe_no_dangling.
Qed.

(** Checking a concrete sequence against the contract, operation by
    operation. *)
Ltac check_permitted :=
  cbn [permitted]; unfold live, valid_ptr, owned;
  first
    [ reflexivity
    | by eexists
    | split;
      [ first [reflexivity | by eexists]
      | first
          [ by eexists
          | intros ? [= <-]; reflexivity
          | eexists; split; [reflexivity|]; intros ? [= <-]; vm_compute; lia ] ] ].

Ltac check_permitted_run :=
  cbn [permitted_run];
  repeat lazymatch goal with
    | |- True => exact I
    | |- permitted ?o ?σ ∧ _ =>
        let r := eval vm_compute in (step o σ) in
        change (step o σ) with r; cbv beta iota;
        split; [check_permitted|]
    end.

(** Two handles on one referent, a release, an adoption through an external
    variable and a move assignment. *)
Lemma X10_permitted_sequences_witness :
  ∃ σ', run [New 7; CtorRaw 1 (Some 7); CtorCopy 2 1; CtorDefault 3;
             ReleaseOp 1; NewSlot 0 (Some 7); SwapPP 3 (Ext 0);
             AssignMove 1 3; Dtor 2; Dtor 3] start = Some σ' ∧
        safe σ' ∧ no_dangling σ'.1.
Proof.
  apply X10_permitted_sequences_are_safe.
  - apply safe_start.
  - unfold start. check_permitted_run.
Defined.

(** ** What every operation is made of *)

Section preserved.

Variable P : state → Prop.
Hypothesis P_AddRef : ∀ p s s', AddRef p s = Some s' → P s → P s'.
Hypothesis P_Release : ∀ p s s', Release p s = Some s' → P s → P s'.
Hypothesis P_new_object : ∀ p s s', new_object p s = Some s' → P s → P s'.
Hypothesis P_set_handles : ∀ f s, P s → P (set_handles f s).
Hypothesis P_set_slots : ∀ f s, P s → P (set_slots f s).

(** Every operation is a sequence of [AddRef] and [Release] calls, of
    [new T], and of writes to handles and variables: what these keep, the
    operation keeps. *)
Lemma step_preserves o σ σ' : step o σ = Some σ' → P σ.1 → P σ'.1.
Proof using All.
  destruct σ as [s g], σ' as [s' g']. simpl. intros H HP.
  destruct o as [p|l v|h|h p|h r|h r|h r|h r|h|h|h|h|h|h|h p|h r|h r|h r|h r|h [r|l]|h r];
    simpl in H;
    repeat first
      [ progress unfold ctor_default, ctor_raw, ctor_copy, ctor_copy_U,
          ctor_move, ctor_move_U, dtor, get, to_raw, deref, arrow, release,
          assign_raw, assign_copy, assign_copy_U, assign_move, assign_move_U,
          swap, swap_pp, read, write, load, store, init, upcast, declare_slot,
          AddRef_if, Release_if in *
      | progress simplify_option_eq
      | match goal with
        | H : match ?v with Some _ => _ | None => _ end = Some _ |- _ =>
            destruct v eqn:?
        | x : (_ * state)%type |- _ => destruct x
        | H : _ ≫= _ = Some _ |- _ => apply bind_Some in H as (? & ? & H)
        end ];
    repeat first
      [ assumption
      | apply P_set_handles
      | apply P_set_slots
      | eapply P_AddRef; [eassumption|]
      | eapply P_Release; [eassumption|]
      | eapply P_new_object; [eassumption|] ].
Qed.

Lemma run_preserves os σ σ' : run os σ = Some σ' → P σ.1 → P σ'.1.
Proof using All.
  revert σ. induction os as [|o os IH]; intros σ H HP; simpl in H.
  - by injection H as <-.
  - apply bind_Some in H as (σ1 & H1 & H). eauto using step_preserves.
Qed.

End preserved.

(** ** Destruction *)

Lemma deletions_other e s p :
  e ≠ EvDelete p → deletions (emit [e] s) p = deletions s p.
Proof.
  intros He. rewrite deletions_emit_cons, deletions_emit_nil.
  rewrite decide_False by done. lia.
Qed.

Lemma tidy_AddRef p s s' : AddRef p s = Some s' → tidy s → tidy s'.
Proof.
  intros H Ht q. apply AddRef_Some in H as (n & Hn & ->). specialize (Ht q).
  rewrite deletions_other, deletions_set_objs by done. simpl.
  destruct (decide (q = p)) as [->|Hq].
  - rewrite lookup_insert_eq. rewrite Hn in Ht. simpl in *. split; [apply Ht|lia].
  - rewrite lookup_insert_ne by done.
    assert (EvAddRef q ∈ log s ++ [EvAddRef p] ↔ EvAddRef q ∈ log s) as E.
    { rewrite elem_of_app, list_elem_of_singleton.
      split; [intros [?|?]; [done|congruence]|by left]. }
    destruct (objs s !! q) as [[m []]|]; simpl in *; rewrite ?E; done.
Qed.

Lemma tidy_Release p s s' : Release p s = Some s' → tidy s → tidy s'.
Proof.
  intros H Ht q. apply Release_Some in H as (n & Hn & ->).
  pose proof (Ht p) as Hp. rewrite Hn in Hp. simpl in Hp. destruct Hp as [Hd _].
  specialize (Ht q). simpl.
  destruct (decide (q = p)) as [->|Hq].
  - rewrite lookup_insert_eq. simpl. destruct n as [|n]; simpl.
    + split; [done|]. rewrite !deletions_emit_cons, deletions_emit_nil.
      rewrite deletions_set_objs, decide_True, decide_False by done. lia.
    + split; [|done]. by rewrite deletions_other, deletions_set_objs.
  - rewrite lookup_insert_ne by done.
    assert (deletions
              (emit (EvRelease p :: (if decide (n = 0) then [EvDelete p] else []))
                    (set_objs <[p := Object n (bool_decide (n ≠ 0))]> s)) q
            = deletions s q) as ->.
    { case_decide.
      - rewrite !deletions_emit_cons, deletions_emit_nil, deletions_set_objs.
        rewrite !decide_False by congruence. lia.
      - by rewrite deletions_other, deletions_set_objs. }
    assert (EvAddRef q ∈ log s ++ EvRelease p
                          :: (if decide (n = 0) then [EvDelete p] else [])
            ↔ EvAddRef q ∈ log s) as E.
    { rewrite elem_of_app. split; [intros [?|He]; [done|]|by left].
      case_decide;
        repeat (apply elem_of_cons in He as [He|He]; [discriminate He|]);
        by apply elem_of_nil in He. }
    destruct (objs s !! q) as [[m []]|]; simpl in *; rewrite ?E; done.
Qed.

Lemma tidy_new_object p s s' : new_object p s = Some s' → tidy s → tidy s'.
Proof.
  unfold new_object. intros H Ht q. pose proof (Ht p) as Hp.
  destruct (objs s !! p) eqn:Ho; [done|]. injection H as <-.
  specialize (Ht q). simpl. rewrite deletions_set_objs.
  destruct (decide (q = p)) as [->|Hq].
  - rewrite lookup_insert_eq. simpl. split; [apply Hp|]. intros _. apply Hp.
  - by rewrite lookup_insert_ne.
Qed.

Lemma tidy_start : tidy empty_state.
Proof. intros p. simpl. rewrite lookup_empty. split; [done|apply not_elem_of_nil]. Qed.

Lemma run_tidy os σ σ' : run os σ = Some σ' → tidy σ.1 → tidy σ'.1.
Proof.
  apply run_preserves; try done.
  - apply tidy_AddRef.
  - apply tidy_Release.
  - apply tidy_new_object.
Qed.

(** X11.  No referent is destroyed twice, and none is left behind.  In
    every sequence of operations that starts with no referent, a referent
    is destroyed at most once, a referent that is alive has not been
    destroyed, and a referent on which [AddRef] was ever called and whose
    count is zero has been destroyed, once.  So in a sequence that never
    swaps with an external variable, once no handle points at such a
    referent and no claim on it was detached by [release()], the referent
    has been destroyed, exactly once. *)
Theorem X11_destroyed_exactly_once :
  ∀ os σ,
    run os start = Some σ →
    ∀ p,
      deletions σ.1 p ≤ 1 ∧
      (is_alive σ.1 p = true → deletions σ.1 p = 0) ∧
      (EvAddRef p ∈ log σ.1 → claim_count σ.1 p = 0 →
         is_alive σ.1 p = false ∧ deletions σ.1 p = 1) ∧
      (handles_only os = true → EvAddRef p ∈ log σ.1 →
       handle_count σ.1 p = 0 → tally (released σ.2) p = 0 →
         is_alive σ.1 p = false ∧ deletions σ.1 p = 1).
Proof.
  intros os σ Hrun p.
  pose proof (run_tidy os start σ Hrun tidy_start p) as Ht.
  assert (EvAddRef p ∈ log σ.1 → claim_count σ.1 p = 0 →
          is_alive σ.1 p = false ∧ deletions σ.1 p = 1) as Hzero.
  { unfold claim_count, refs_of, is_alive.
    destruct (objs σ.1 !! p) as [[n []]|]; simpl in *; [|tauto|tauto].
    intros Hin ->. by destruct Ht as [_ []]. }
  split_and!.
  - unfold is_alive. destruct (objs σ.1 !! p) as [[n []]|]; simpl in *; lia.
  - unfold is_alive. destruct (objs σ.1 !! p) as [[n []]|]; simpl in *; [tauto|done..].
  - done.
  - intros Hos Hin Hh Hr. apply Hzero; [done|].
    destruct (run_handles_only _ _ _ Hrun Hos) as [E1 E2].
    pose proof (run_balanced _ _ _ Hrun balanced_empty) as Hb.
    pose proof (balanced_without_slots σ Hb E1 E2 p) as Hp. lia.
Qed.

(** Two handles on a referent, both destroyed. *)
Lemma X11_destroyed_exactly_once_witness :
  ∃ σ, run [New 7; CtorRaw 1 (Some 7); CtorCopy 2 1; Dtor 1; Dtor 2] start = Some σ ∧
       deletions σ.1 7 ≤ 1 ∧ is_alive σ.1 7 = false ∧ deletions σ.1 7 = 1.
Proof.
  eexists. split; [vm_compute; reflexivity|].
  edestruct (X11_destroyed_exactly_once
               [New 7; CtorRaw 1 (Some 7); CtorCopy 2 1; Dtor 1; Dtor 2])
    as (Hle & _ & _ & Hgone); [vm_compute; reflexivity|].
  split; [exact Hle|]. apply Hgone.
  - reflexivity.
  - vm_compute. apply list_elem_of_here.
  - reflexivity.
  - reflexivity.
Defined.

(** ** More on InitCocoaMultiThreading *)

(** X12.  In every state of the process and in every build a call of
    [InitCocoaMultiThreading] returns (the debug check never fails), leaves
    the static set, and detaches at most one thread, after which Cocoa is
    multithreaded; a call right after it changes nothing. *)
Theorem X12_init_cocoa_idempotent :
  ∀ dchecks π,
    ∃ π',
      Cocoa.InitCocoaMultiThreading dchecks π = Some π' ∧
      Cocoa.is_cocoa_multithreaded π' = Some true ∧
      Cocoa.InitCocoaMultiThreading dchecks π' = Some π' ∧
      ((Cocoa.detached π' = Cocoa.detached π ∧
        Cocoa.ns_multithreaded π' = Cocoa.ns_multithreaded π)
       ∨ (Cocoa.detached π' = S (Cocoa.detached π) ∧
          Cocoa.ns_multithreaded π' = true)).
Proof.
  intros dchecks [[[|]|] m n]; unfold Cocoa.InitCocoaMultiThreading, Cocoa.RTC_DCHECK;
    simpl.
  - eexists. split; [done|]. simpl. split_and!; [done..|]. by left.
  - rewrite andb_false_r. eexists. split; [done|]. simpl. split_and!; [done..|].
    by right.
  - destruct m; simpl; rewrite ?andb_false_r.
    + eexists. split; [done|]. simpl. split_and!; [done..|]. by left.
    + eexists. split; [done|]. simpl. split_and!; [done..|]. by right.
Qed.

Lemma run_process_engaged dchecks acts π π' :
  Cocoa.is_cocoa_multithreaded π = Some true →
  Cocoa.run_process dchecks acts π = Some π' →
  Cocoa.is_cocoa_multithreaded π' = Some true ∧
  Cocoa.detached π' = Cocoa.detached π ∧
  (Cocoa.ns_multithreaded π = true → Cocoa.ns_multithreaded π' = true).
Proof.
  revert π. induction acts as [|a acts IH]; intros π Hf H; simpl in H.
  - by injection H as <-.
  - destruct a; simpl in H.
    + rewrite later_call in H by done. simpl in H. by apply IH.
    + apply IH in H as (? & ? & Hns); [|done]. simpl in *. split_and!; [done..|].
      intros _. by apply Hns.
Qed.

Lemma run_process_multithreaded dchecks acts π' :
  Cocoa.run_process dchecks acts (Cocoa.Process None true 0) = Some π' →
  Cocoa.ns_multithreaded π' = true ∧ Cocoa.detached π' = 0.
Proof.
  induction acts as [|a acts IH]; intros H; cbn [Cocoa.run_process] in H.
  - by injection H as <-.
  - destruct a; cbn [Cocoa.act] in H.
    + rewrite first_call in H. cbn [mbind option_bind] in H.
      apply run_process_engaged in H as (_ & ? & Hns); [|done].
      split; [by apply Hns|done].
    + by apply IH.
Qed.

(** X13.  In a process that starts with the static not initialised, once
    [InitCocoaMultiThreading] has been called Cocoa is multithreaded.  The
    function has detached a thread exactly when Cocoa was single-threaded
    at the first call: one thread if the process started single-threaded
    and no other code detached a thread before the first call, none
    otherwise. *)
Theorem X13_cocoa_multithreaded_after_call :
  ∀ dchecks multithreaded acts π,
    Cocoa.run_process dchecks acts (Cocoa.fresh_process multithreaded) = Some π →
    Cocoa.called acts = true →
    Cocoa.ns_multithreaded π = true ∧
    Cocoa.detached π
    = if multithreaded || Cocoa.other_thread_first acts then 0 else 1.
Proof.
  intros dchecks mt acts π H Hc. destruct acts as [|[|] acts]; [done| |].
  - cbn [Cocoa.run_process Cocoa.act] in H. unfold Cocoa.fresh_process in H.
    rewrite first_call in H. cbn [mbind option_bind] in H. apply run_process_engaged in H as (_ & Hd & Hns); [|done].
    split; [by apply Hns|]. rewrite Hd. simpl. rewrite orb_false_r. by destruct mt.
  - cbn [Cocoa.run_process Cocoa.act mbind option_bind] in H.
    destruct (run_process_multithreaded _ _ _ H) as [-> ->].
    by rewrite orb_true_r.
Qed.

(** A first call in a single-threaded process, with later calls. *)
Lemma X13_cocoa_multithreaded_witness :
  ∃ π, Cocoa.run_process true [Cocoa.Call; Cocoa.Call; Cocoa.OtherThread; Cocoa.Call]
         (Cocoa.fresh_process false) = Some π ∧
       Cocoa.ns_multithreaded π = true ∧ Cocoa.detached π = 1.
Proof.
  eexists. split; [vm_compute; reflexivity|].
  apply (X13_cocoa_multithreaded_after_call true false
           [Cocoa.Call; Cocoa.Call; Cocoa.OtherThread; Cocoa.Call]);
    reflexivity.
Defined.

(** ** What an operation leaves alone *)






